(** * mypy/fswatcher.py: the polling file-system watcher

    A shallow embedding of [FileSystemWatcher] and the properties of its
    change-detection pass [find_changed].

    The watcher object holds a set [_paths] of watched paths and a dict
    [_file_data] from paths to [Optional[FileData]].  Both are modelled with
    stdpp's finite sets and maps; the value [None] stored in the dict is
    [Some None] on the Rocq side, a missing key is [None].

    All file-system access goes through a [FileSystemCache] object, whose
    class is not part of this module.  It is taken as a parameter: a pair of
    functions answering [stat] and [md5] per path, either with a value or
    with a raised exception.  The answers are fixed for the duration of one
    poll: the cache keeps what it has read until it is flushed, and the
    watcher never flushes it (see the class docstring), so calls for the
    same path within one pass are answered alike.  Between two polls the
    answers may change; each call of [find_changed] takes its own accessor
    value.  Every call made to the accessor is recorded in a log, so that
    the number and the order of the queries can be stated. *)

From stdpp Require Import gmap strings list fin_maps fin_sets.
From Stdlib Require Import ZArith.

Set Warnings "-clear-no-such-hyp".

Local Open Scope Z_scope.

(** ** Data *)

Abbreviation path := string (only parsing).

(** Exceptions that can leave the methods of the watcher.  [KeyError] is
    raised by a dict subscript on a missing key, [FileNotFoundError] by
    [fs.stat]; [OtherError] stands for every other exception class the
    accessor may raise (PermissionError, IOError, ...). *)
Inductive exn :=
| FileNotFoundError
| KeyError (key : path)
| OtherError (name : string).

#[global] Instance exn_eq_dec : EqDecision exn.
Proof. solve_decision. Defined.

Module os.
(** The two fields of [os.stat_result] the watcher reads.  [st_mtime] is a
    float of seconds in Python; the watcher only compares it with [!=], and
    the finite values [os.stat] produces compare equal exactly when they are
    the same number, so a timestamp is modelled by an integer tick count. *)
Record stat_result := { st_size : Z; st_mtime : Z }.
End os.

(** [FileData = NamedTuple('FileData', [('st_mtime', float), ('st_size', int), ('md5', str)])] *)
Record FileData := mkFileData { st_mtime : Z; st_size : Z; md5 : string }.

#[global] Instance FileData_eq_dec : EqDecision FileData.
Proof. solve_decision. Defined.

Module FileSystemCache.
(** The accessor, as far as the watcher uses it. *)
Record t := {
  stat : path → exn + os.stat_result;
  md5 : path → exn + string
}.
End FileSystemCache.

(** One call made to the accessor. *)
Inductive query :=
| QStat (p : path)
| QMd5 (p : path).

#[global] Instance query_eq_dec : EqDecision query.
Proof. solve_decision. Defined.

Definition query_path (q : query) : path :=
  match q with QStat p | QMd5 p => p end.

(** The state of a watcher object: [self._paths] and [self._file_data].
    ([self.fs] is passed to the methods that use it.) *)
Record FileSystemWatcher := mkWatcher {
  _paths : gset path;
  _file_data : gmap path (option FileData)
}.

(** [__init__] *)
Definition init : FileSystemWatcher :=
  {| _paths := ∅; _file_data := ∅ |}.

(** The [paths] property. *)
Definition paths (self : FileSystemWatcher) : gset path := _paths self.

(** An argument of type [Iterable[str]].  [add_watched_paths] and
    [remove_watched_paths] traverse their argument twice (once in the [for]
    loop, once in [set(paths)]).  A collection (list, set, tuple) yields the
    same elements both times; a one-shot iterator (a generator) is exhausted
    by the first traversal and yields nothing the second time. *)
Inductive iterable :=
| Collection (l : list path)
| Iterator (l : list path).

Definition first_pass (it : iterable) : list path :=
  match it with Collection l | Iterator l => l end.

Definition second_pass (it : iterable) : list path :=
  match it with Collection l => l | Iterator _ => [] end.

(** ** Methods that do not touch the file system *)

Definition set_file_data (p : path) (data : FileData)
    (self : FileSystemWatcher) : FileSystemWatcher :=
  {| _paths := _paths self;
     _file_data := <[p := Some data]> (_file_data self) |}.

Definition add_watched_paths (ps : iterable)
    (self : FileSystemWatcher) : FileSystemWatcher :=
  let file_data :=
    foldl (λ fd p, if decide (p ∉ _paths self) then <[p := None]> fd else fd)
          (_file_data self) (first_pass ps) in
  {| _paths := _paths self ∪ list_to_set (second_pass ps);
     _file_data := file_data |}.

Definition remove_watched_paths (ps : iterable)
    (self : FileSystemWatcher) : FileSystemWatcher :=
  let file_data :=
    foldl (λ fd p, if decide (is_Some (fd !! p)) then delete p fd else fd)
          (_file_data self) (first_pass ps) in
  {| _paths := _paths self ∖ list_to_set (second_pass ps);
     _file_data := file_data |}.

(** ** The monad of the polling pass

    A computation reads and writes [self._file_data], appends to the log of
    accessor calls, and either returns a value or raises.  When it raises,
    the state reached so far is kept, as the mutations of a Python object
    are. *)

Record pstate := mkPState {
  file_data : gmap path (option FileData);
  calls : list query
}.

Definition M (A : Type) : Type := pstate → (exn + A) * pstate.

Definition ret {A} (a : A) : M A := λ s, (inr a, s).

Definition raise {A} (e : exn) : M A := λ s, (inl e, s).

Definition bind {A B} (m : M A) (k : A → M B) : M B :=
  λ s, match m s with
       | (inl e, s') => (inl e, s')
       | (inr a, s') => k a s'
       end.

Declare Scope poll_scope.
Delimit Scope poll_scope with poll.
Notation "'let!' x ':=' m 'in' k" := (bind m (λ x, k))
  (at level 10, x name, m at level 100, k at level 200) : poll_scope.
Notation "'do!' m 'in' k" := (bind m (λ _, k))
  (at level 10, m at level 100, k at level 200) : poll_scope.
Local Open Scope poll_scope.

(** [self._file_data[path]], raising [KeyError] on a missing key. *)
Definition getitem (p : path) : M (option FileData) :=
  λ s, match file_data s !! p with
       | Some v => ret v s
       | None => raise (KeyError p) s
       end.

(** [self._file_data[path] = v] *)
Definition setitem (p : path) (v : option FileData) : M unit :=
  λ s, (inr tt, {| file_data := <[p := v]> (file_data s); calls := calls s |}).

Section WithAccessor.
Variable fs : FileSystemCache.t.

(** [self.fs.stat(path)]: the call is logged, then answers or raises. *)
Definition fs_stat (p : path) : M os.stat_result :=
  λ s, (FileSystemCache.stat fs p,
        {| file_data := file_data s; calls := calls s ++ [QStat p] |}).

(** [self.fs.md5(path)] *)
Definition fs_md5 (p : path) : M string :=
  λ s, (FileSystemCache.md5 fs p,
        {| file_data := file_data s; calls := calls s ++ [QMd5 p] |}).

(** [try: st = self.fs.stat(path) / except FileNotFoundError:] as a value:
    [None] when the handler is entered, [Some st] for the [else:] branch;
    any other exception leaves the [try] statement. *)
Definition try_stat (p : path) : M (option os.stat_result) :=
  λ s, match fs_stat p s with
       | (inl FileNotFoundError, s') => ret None s'
       | (inl e, s') => raise e s'
       | (inr st, s') => ret (Some st) s'
       end.

Definition _update (p : path) : M unit :=
  let! st := fs_stat p in
  let! h := fs_md5 p in
  setitem p (Some (mkFileData (os.st_mtime st) (os.st_size st) h)).

(** The body of the [for path in self._paths] loop of [find_changed]; the
    local variable [changed] is threaded through. *)
Definition find_changed_body (p : path) (changed : gset path) : M (gset path) :=
  let! old := getitem p in
  let! r := try_stat p in
  match r with
  | None =>
      match old with
      | Some _ =>
          (* File was deleted. *)
          let changed := changed ∪ {[p]} in
          do! setitem p None in
          ret changed
      | None => ret changed
      end
  | Some st =>
      match old with
      | None =>
          (* File is new. *)
          let changed := changed ∪ {[p]} in
          do! _update p in
          ret changed
      | Some old =>
          if decide (os.st_size st ≠ st_size old ∨ os.st_mtime st ≠ st_mtime old)
          then
            let! new_md5 := fs_md5 p in
            do! _update p in
            if decide (os.st_size st ≠ st_size old ∨ new_md5 ≠ md5 old)
            then ret (changed ∪ {[p]})
            else ret changed
          else ret changed
      end
  end.

(** The loop over an iteration order [ps] of the watched set. *)
Fixpoint find_changed_loop (ps : list path) (changed : gset path) : M (gset path) :=
  match ps with
  | [] => ret changed
  | p :: ps' =>
      let! changed' := find_changed_body p changed in
      find_changed_loop ps' changed'
  end.

End WithAccessor.

(** The result of one call of [find_changed]: what the call returned or
    raised, the watcher afterwards, and the accessor calls it made. *)
Record poll_result := mkPoll {
  outcome : exn + gset path;
  after : FileSystemWatcher;
  queries : list query
}.

(** [order] is a possible iteration order of the set [X]: it lists every
    member once.  Python fixes no order for the traversal of a set. *)
Definition enumerates (order : list path) (X : gset path) : Prop :=
  NoDup order ∧ ∀ p, p ∈ order ↔ p ∈ X.

(** [find_changed].  The order in which [for path in self._paths] visits the
    set is an argument; the properties below hold for every [order] that
    [enumerates] the watched set. *)
Definition find_changed (fs : FileSystemCache.t) (order : list path)
    (self : FileSystemWatcher) : poll_result :=
  let rs :=
    find_changed_loop fs order ∅
      {| file_data := _file_data self; calls := [] |} in
  {| outcome := rs.1;
     after := {| _paths := _paths self; _file_data := file_data rs.2 |};
     queries := calls rs.2 |}.

Arguments find_changed : simpl never.

(** Consecutive polls against the same answers of the accessor, each with
    its own iteration order. *)
Fixpoint poll_many (fs : FileSystemCache.t) (orders : list (list path))
    (self : FileSystemWatcher) : list poll_result :=
  match orders with
  | [] => []
  | order :: orders' =>
      let r := find_changed fs order self in
      r :: poll_many fs orders' (after r)
  end.

(** ** Sequences of calls

    The public methods, as the steps of a client of one watcher object. *)
Inductive call :=
| SetFileData (p : path) (data : FileData)
| AddWatchedPaths (ps : iterable)
| RemoveWatchedPaths (ps : iterable)
| FindChanged (fs : FileSystemCache.t) (order : list path).

(** The watcher after a call ([find_changed] may have raised). *)
Definition perform (c : call) (self : FileSystemWatcher) : FileSystemWatcher :=
  match c with
  | SetFileData p data => set_file_data p data self
  | AddWatchedPaths ps => add_watched_paths ps self
  | RemoveWatchedPaths ps => remove_watched_paths ps self
  | FindChanged fs order => after (find_changed fs order self)
  end.

Fixpoint perform_all (cs : list call) (self : FileSystemWatcher)
    : FileSystemWatcher :=
  match cs with
  | [] => self
  | c :: cs' => perform_all cs' (perform c self)
  end.

(** The results of the polls among the calls, in order. *)
Fixpoint polls (cs : list call) (self : FileSystemWatcher) : list poll_result :=
  match cs with
  | [] => []
  | c :: cs' =>
      match c with
      | FindChanged fs order => [find_changed fs order self]
      | _ => []
      end ++ polls cs' (perform c self)
  end.

(** Every poll among the calls visits the watched set of its moment. *)
Fixpoint ordered_all (cs : list call) (self : FileSystemWatcher) : Prop :=
  match cs with
  | [] => True
  | c :: cs' =>
      match c with
      | FindChanged _ order => enumerates order (_paths self)
      | _ => True
      end ∧ ordered_all cs' (perform c self)
  end.

(** The call puts [p] into the watched set. *)
Definition adds (c : call) (p : path) : Prop :=
  match c with
  | AddWatchedPaths ps => p ∈ second_pass ps
  | _ => False
  end.

(** No poll of [rs] that returned has [p] in its result. *)
Definition never_reported (p : path) (rs : list poll_result) : Prop :=
  Forall (λ r, ∀ changed, outcome r = inr changed → p ∉ changed) rs.

(** The keys of the dict are the watched paths; and the weaker statement
    that every watched path has a key. *)
Definition lockstep (self : FileSystemWatcher) : Prop :=
  dom (_file_data self) = _paths self.

Definition covered (self : FileSystemWatcher) : Prop :=
  _paths self ⊆ dom (_file_data self).

(** The calls under which the key set follows the watched set: adding and
    removing with an argument that yields the same paths on both of its
    traversals, polling, and [set_file_data] on a watched path. *)
Definition described (c : call) (self : FileSystemWatcher) : Prop :=
  match c with
  | SetFileData p _ => p ∈ _paths self
  | AddWatchedPaths ps | RemoveWatchedPaths ps => second_pass ps = first_pass ps
  | FindChanged _ _ => True
  end.

Fixpoint described_all (cs : list call) (self : FileSystemWatcher) : Prop :=
  match cs with
  | [] => True
  | c :: cs' => described c self ∧ described_all cs' (perform c self)
  end.

(** The accessor raises [e] when the loop body runs for [p] with the entry
    [old]: from [stat], with anything but [FileNotFoundError], or from
    [md5], which is called when the entry is [None] or differs from the
    stat result in size or mtime. *)
Definition accessor_raises (fs : FileSystemCache.t) (p : path)
    (old : option FileData) (e : exn) : Prop :=
  (FileSystemCache.stat fs p = inl e ∧ e ≠ FileNotFoundError) ∨
  (∃ st,
     FileSystemCache.stat fs p = inr st ∧
     FileSystemCache.md5 fs p = inl e ∧
     match old with
     | None => True
     | Some o => os.st_size st ≠ st_size o ∨ os.st_mtime st ≠ st_mtime o
     end).

(** ** What one loop iteration amounts to

    For a path whose dict entry is [old], the answers of the accessor
    determine what the loop body does: the exception it raises, or the new
    entry and whether the path is reported; and the accessor calls made on
    the way.  [find_changed_body_verdict] below relates the code to it. *)
Definition verdict (fs : FileSystemCache.t) (p : path) (old : option FileData)
    : (exn + option FileData * bool) * list query :=
  match FileSystemCache.stat fs p with
  | inl FileNotFoundError =>
      (inr (None, bool_decide (old ≠ None)), [QStat p])
  | inl e => (inl e, [QStat p])
  | inr st =>
      match old with
      | None =>
          match FileSystemCache.md5 fs p with
          | inl e => (inl e, [QStat p; QStat p; QMd5 p])
          | inr h =>
              (inr (Some (mkFileData (os.st_mtime st) (os.st_size st) h), true),
               [QStat p; QStat p; QMd5 p])
          end
      | Some o =>
          if decide (os.st_size st ≠ st_size o ∨ os.st_mtime st ≠ st_mtime o)
          then
            match FileSystemCache.md5 fs p with
            | inl e => (inl e, [QStat p; QMd5 p])
            | inr h =>
                (inr (Some (mkFileData (os.st_mtime st) (os.st_size st) h),
                      bool_decide (os.st_size st ≠ st_size o ∨ h ≠ md5 o)),
                 [QStat p; QMd5 p; QStat p; QMd5 p])
            end
          else (inr (Some o, false), [QStat p])
      end
  end.

(** The accessor calls one iteration makes for [p], given the dict at the
    start of the iteration (none when the subscript raises [KeyError]). *)
Definition path_queries (fs : FileSystemCache.t)
    (fd : gmap path (option FileData)) (p : path) : list query :=
  match fd !! p with
  | Some old => (verdict fs p old).2
  | None => []
  end.

(** A watcher is settled for the answers [fs] when, for every watched
    path, the verdict on its entry is to keep it and report nothing. *)
Definition settled (fs : FileSystemCache.t) (self : FileSystemWatcher) : Prop :=
  ∀ p, p ∈ _paths self →
    ∃ v qs, _file_data self !! p = Some v ∧
            verdict fs p v = (inr (v, false), qs).

(** The number of occurrences of a query in a log. *)
Definition count_query (q : query) (log : list query) : nat :=
  length (filter (λ q', q' = q) log).

(** ** Sample accessors and watchers

    An accessor given by a table: a path not in the table does not exist. *)
Definition answer : Type := (exn + os.stat_result) * (exn + string).

Definition file (size mtime : Z) (h : string) : answer :=
  (inr {| os.st_size := size; os.st_mtime := mtime |}, inr h).

Definition unreadable (size mtime : Z) (e : exn) : answer :=
  (inr {| os.st_size := size; os.st_mtime := mtime |}, inl e).

Definition disk (table : list (path * answer)) : FileSystemCache.t :=
  let find p := snd <$> list_find (λ row, row.1 = p) table in
  {| FileSystemCache.stat p :=
       match find p with
       | Some row => row.2.1
       | None => inl FileNotFoundError
       end;
     FileSystemCache.md5 p :=
       match find p with
       | Some row => row.2.2
       | None => inl FileNotFoundError
       end |}.

Definition no_files : FileSystemCache.t := disk [].
Definition a_is_x : FileSystemCache.t := disk [("/a", file 1 100 "x")].
Definition a_touched : FileSystemCache.t := disk [("/a", file 1 200 "x")].
Definition a_is_y : FileSystemCache.t := disk [("/a", file 2 300 "yy")].
Definition a_rewritten : FileSystemCache.t := disk [("/a", file 1 100 "z")].

(** A watcher of ["/a"] before its first poll, and after a poll that saw
    the content ["x"]. *)
Definition watching_a : FileSystemWatcher :=
  add_watched_paths (Collection ["/a"]) init.

Definition seen_x : FileSystemWatcher :=
  after (find_changed a_is_x ["/a"] watching_a).

(** Two watched paths, of which ["/a"] cannot be read. *)
Definition watching_ab : FileSystemWatcher :=
  add_watched_paths (Collection ["/a"; "/b"]) init.

Definition b_and_unreadable_a : FileSystemCache.t :=
  disk [("/a", unreadable 1 100 (OtherError "PermissionError"));
        ("/b", file 5 100 "b")].

(** * Proofs *)

(** ** Lists *)

Section Filter.
Context {A : Type} (P : A → Prop) `{!∀ x, Decision (P x)}.

Lemma filter_all (l : list A) : (∀ x, x ∈ l → P x) → filter P l = l.
Proof.
  induction l as [|x l IH]; intros Hl; [done|].
  rewrite filter_cons_True by (apply Hl; left).
  f_equal. apply IH. intros y Hy. apply Hl. by right.
Qed.

Lemma filter_none (l : list A) : (∀ x, x ∈ l → ¬ P x) → filter P l = [].
Proof.
  induction l as [|x l IH]; intros Hl; [done|].
  rewrite filter_cons_False by (apply Hl; left).
  apply IH. intros y Hy. apply Hl. by right.
Qed.

End Filter.

(** ** The loop body *)

Section Body.
Variable fs : FileSystemCache.t.

Lemma find_changed_body_missing p changed s :
  file_data s !! p = None →
  find_changed_body fs p changed s = (inl (KeyError p), s).
Proof.
  intros Hp. unfold find_changed_body, bind, getitem. by rewrite Hp.
Qed.

Lemma find_changed_body_verdict p changed s old :
  file_data s !! p = Some old →
  find_changed_body fs p changed s =
    match verdict fs p old with
    | (inl e, qs) =>
        (inl e, {| file_data := file_data s; calls := calls s ++ qs |})
    | (inr (new, reported), qs) =>
        (inr (if reported then changed ∪ {[p]} else changed),
         {| file_data := <[p := new]> (file_data s); calls := calls s ++ qs |})
    end.
Proof.
  intros Hp. destruct s as [fd log]. simpl in Hp.
  unfold find_changed_body, verdict, bind, getitem, try_stat, _update, bind,
    fs_stat, fs_md5, setitem, ret; simpl; rewrite Hp.
  destruct (FileSystemCache.stat fs p) as [e|st] eqn:Hst;
    [destruct e|]; try done.
  - destruct old as [o|].
    + by rewrite bool_decide_true.
    + rewrite bool_decide_false; [|naive_solver]. by rewrite insert_id.
  - destruct old as [o|]; simpl.
    + case_decide as Hmeta; [|by rewrite insert_id].
      destruct (FileSystemCache.md5 fs p) as [e|h] eqn:Hmd5; simpl;
        rewrite <- !app_assoc; simpl; [done|].
      case_decide; [rewrite bool_decide_true|rewrite bool_decide_false]; done.
    + destruct (FileSystemCache.md5 fs p) as [e|h] eqn:Hmd5; simpl;
        rewrite <- !app_assoc; done.
Qed.

End Body.

(** ** The loop *)

Section Loop.
Variable fs : FileSystemCache.t.

Local Abbreviation about p := (λ q : query, query_path q = p).

(** The three ways an iteration can go. *)
Inductive body_view (p : path) (changed : gset path) (s : pstate)
    : (exn + gset path) * pstate → Prop :=
| body_key_error :
    file_data s !! p = None →
    body_view p changed s (inl (KeyError p), s)
| body_raises old e qs :
    file_data s !! p = Some old →
    verdict fs p old = (inl e, qs) →
    body_view p changed s
      (inl e, {| file_data := file_data s; calls := calls s ++ qs |})
| body_returns old new reported qs :
    file_data s !! p = Some old →
    verdict fs p old = (inr (new, reported), qs) →
    body_view p changed s
      (inr (if reported then changed ∪ {[p]} else changed),
       {| file_data := <[p := new]> (file_data s); calls := calls s ++ qs |}).

Lemma find_changed_body_view p changed s :
  body_view p changed s (find_changed_body fs p changed s).
Proof.
  destruct (file_data s !! p) as [old|] eqn:Hp.
  - rewrite (find_changed_body_verdict fs p changed s old Hp).
    destruct (verdict fs p old) as [[e|[new reported]] qs] eqn:Hv.
    + by eapply body_raises.
    + by eapply body_returns.
  - rewrite (find_changed_body_missing fs p changed s Hp).
    by apply body_key_error.
Qed.

Lemma find_changed_loop_cons p ps changed s :
  find_changed_loop fs (p :: ps) changed s =
    match find_changed_body fs p changed s with
    | (inl e, s') => (inl e, s')
    | (inr changed', s') => find_changed_loop fs ps changed' s'
    end.
Proof. reflexivity. Qed.

Lemma find_changed_loop_app ps1 ps2 changed s :
  find_changed_loop fs (ps1 ++ ps2) changed s =
    match find_changed_loop fs ps1 changed s with
    | (inl e, s') => (inl e, s')
    | (inr changed', s') => find_changed_loop fs ps2 changed' s'
    end.
Proof.
  revert changed s. induction ps1 as [|p ps1 IH]; intros changed s; [done|].
  simpl app. rewrite !find_changed_loop_cons.
  destruct (find_changed_body fs p changed s) as [[e|changed'] s']; [done|].
  apply IH.
Qed.

Lemma verdict_queries_about p old q :
  q ∈ (verdict fs p old).2 → query_path q = p.
Proof.
  unfold verdict.
  destruct (FileSystemCache.stat fs p) as [[]|st];
    [| | |destruct old as [o|];
           [destruct (decide _)|];
           try destruct (FileSystemCache.md5 fs p)];
    simpl; intros Hq;
    repeat (apply elem_of_cons in Hq as [->|Hq]; [done|]);
    by apply elem_of_nil in Hq.
Qed.

Lemma filter_about_verdict p old :
  filter (about p) (verdict fs p old).2 = (verdict fs p old).2.
Proof.
  apply filter_all. intros q. apply verdict_queries_about.
Qed.

Lemma filter_about_verdict_ne p p' old :
  p ≠ p' → filter (about p) (verdict fs p' old).2 = [].
Proof.
  intros Hne. apply filter_none.
  intros q Hq%verdict_queries_about. congruence.
Qed.

(** Entries of paths outside the iteration are not touched, however the
    loop ends. *)
Lemma find_changed_loop_frame ps changed s p :
  p ∉ ps →
  file_data (find_changed_loop fs ps changed s).2 !! p = file_data s !! p.
Proof.
  revert changed s. induction ps as [|p0 ps IH]; intros changed s Hp; [done|].
  apply not_elem_of_cons in Hp as [Hne Hp].
  rewrite find_changed_loop_cons.
  destruct (find_changed_body_view p0 changed s); simpl; try done.
  rewrite IH by done. simpl. by rewrite lookup_insert_ne.
Qed.

(** A path outside the iteration is reported only if it was in [changed]
    already. *)
Lemma find_changed_loop_changed_frame ps changed s changed' s' p :
  find_changed_loop fs ps changed s = (inr changed', s') →
  p ∉ ps →
  p ∈ changed' ↔ p ∈ changed.
Proof.
  revert changed s. induction ps as [|p0 ps IH]; intros changed s Hrun Hp.
  - by inversion Hrun.
  - apply not_elem_of_cons in Hp as [Hne Hp].
    rewrite find_changed_loop_cons in Hrun.
    destruct (find_changed_body_view p0 changed s) as [| |old new [] qs];
      try done.
    + rewrite (IH _ _ Hrun Hp). set_solver.
    + by rewrite (IH _ _ Hrun Hp).
Qed.

(** What a pass, returning or not, can have done to an entry: nothing, or
    the write its verdict asks for. *)
Lemma find_changed_loop_entry ps changed s p :
  NoDup ps →
  file_data (find_changed_loop fs ps changed s).2 !! p = file_data s !! p ∨
  ∃ old new reported qs,
    file_data s !! p = Some old ∧
    verdict fs p old = (inr (new, reported), qs) ∧
    file_data (find_changed_loop fs ps changed s).2 !! p = Some new.
Proof.
  revert changed s. induction ps as [|p0 ps IH]; intros changed s Hnd; [by left|].
  apply NoDup_cons in Hnd as [Hp0 Hnd].
  rewrite find_changed_loop_cons.
  destruct (find_changed_body_view p0 changed s) as [| |old new r qs Hold Hv];
    simpl; [by left..|].
  destruct (decide (p = p0)) as [->|Hne].
  - right. exists old, new, r, qs. split_and!; [done..|].
    rewrite find_changed_loop_frame by done. simpl. apply lookup_insert_eq.
  - destruct (IH (if r then changed ∪ {[p0]} else changed)
      {| file_data := <[p0:=new]> (file_data s); calls := calls s ++ qs |} Hnd)
      as [Hsame|(old' & new' & r' & qs' & H1 & H2 & H3)];
      simpl in *; rewrite lookup_insert_ne in * by done.
    + by left.
    + right. by exists old', new', r', qs'.
Qed.

(** The accessor calls of a pass, path by path: the calls about [p] are
    those of the iteration for [p], if the pass got that far. *)
Lemma find_changed_loop_queries ps changed s :
  NoDup ps →
  ∃ ext,
    calls (find_changed_loop fs ps changed s).2 = calls s ++ ext ∧
    (∀ p, p ∉ ps → filter (about p) ext = []) ∧
    (∀ p, filter (about p) ext = [] ∨
          filter (about p) ext = path_queries fs (file_data s) p) ∧
    (∀ changed', (find_changed_loop fs ps changed s).1 = inr changed' →
       ∀ p, p ∈ ps →
         filter (about p) ext = path_queries fs (file_data s) p).
Proof.
  revert changed s.
  induction ps as [|p0 ps IH]; intros changed s Hnd.
  { exists []. simpl. rewrite app_nil_r. split_and!; auto.
    intros _ _ p Hp. by apply elem_of_nil in Hp. }
  apply NoDup_cons in Hnd as [Hp0 Hnd].
  rewrite find_changed_loop_cons.
  destruct (find_changed_body_view p0 changed s) as [|old e qs Hold Hv|old new r qs Hold Hv];
    simpl.
  - exists []. rewrite app_nil_r. split_and!; auto. done.
  - exists qs. replace qs with (verdict fs p0 old).2 by by rewrite Hv.
    split_and!; [done| | |done].
    + intros p [Hne _]%not_elem_of_cons. by apply filter_about_verdict_ne.
    + intros p. destruct (decide (p = p0)) as [->|Hne].
      * right. unfold path_queries. rewrite Hold. apply filter_about_verdict.
      * left. by apply filter_about_verdict_ne.
  - set (s1 := {| file_data := <[p0:=new]> (file_data s);
                  calls := calls s ++ qs |}).
    set (changed1 := if r then changed ∪ {[p0]} else changed).
    destruct (IH changed1 s1 Hnd) as (ext & Hcalls & Hout & Hany & Hret).
    assert (Hqs : qs = (verdict fs p0 old).2) by by rewrite Hv.
    assert (Hsame : ∀ p, p ≠ p0 →
      path_queries fs (file_data s1) p = path_queries fs (file_data s) p).
    { intros p Hne. unfold path_queries, s1. simpl.
      by rewrite lookup_insert_ne. }
    assert (Hp0qs : filter (about p0) (qs ++ ext)
                    = path_queries fs (file_data s) p0).
    { rewrite filter_app, (Hout p0 Hp0), app_nil_r, Hqs.
      unfold path_queries. rewrite Hold. apply filter_about_verdict. }
    exists (qs ++ ext). rewrite Hcalls. simpl. rewrite <- app_assoc.
    split_and!; [done| | |].
    + intros p [Hne Hp]%not_elem_of_cons.
      rewrite filter_app, (Hout p Hp), Hqs, filter_about_verdict_ne; done.
    + intros p. destruct (decide (p = p0)) as [->|Hne]; [by right|].
      rewrite filter_app, Hqs, filter_about_verdict_ne by done. simpl.
      rewrite <- (Hsame p Hne). apply Hany.
    + intros changed' Hr p [->|Hp]%elem_of_cons; [done|].
      assert (p ≠ p0) as Hne by (intros ->; done).
      rewrite filter_app, Hqs, filter_about_verdict_ne by done. simpl.
      rewrite <- (Hsame p Hne). by eapply Hret.
Qed.

(** When the pass returns, every path of the iteration has been handled
    according to its verdict. *)
Lemma find_changed_loop_returns ps changed s changed' s' :
  NoDup ps →
  find_changed_loop fs ps changed s = (inr changed', s') →
  ∀ p, p ∈ ps →
    ∃ old new reported qs,
      file_data s !! p = Some old ∧
      verdict fs p old = (inr (new, reported), qs) ∧
      file_data s' !! p = Some new ∧
      (p ∈ changed' ↔ reported = true ∨ p ∈ changed).
Proof.
  revert changed s.
  induction ps as [|p0 ps IH]; intros changed s Hnd Hrun p Hp.
  { by apply elem_of_nil in Hp. }
  apply NoDup_cons in Hnd as [Hp0 Hnd].
  rewrite find_changed_loop_cons in Hrun.
  destruct (find_changed_body_view p0 changed s)
    as [| |old new r qs Hold Hv]; try done.
  apply elem_of_cons in Hp as [->|Hp].
  - exists old, new, r, qs. split_and!; [done..| |].
    + erewrite <- (f_equal snd Hrun : _ = s').
      rewrite find_changed_loop_frame by done. simpl. apply lookup_insert_eq.
    + rewrite (find_changed_loop_changed_frame _ _ _ _ _ _ Hrun Hp0).
      destruct r; set_solver.
  - assert (p ≠ p0) as Hne by (intros ->; done).
    destruct (IH _ _ Hnd Hrun p Hp) as (old' & new' & r' & qs' & H1 & H2 & H3 & H4).
    simpl in H1. rewrite lookup_insert_ne in H1 by done.
    exists old', new', r', qs'. split_and!; [done..|].
    rewrite H4. destruct r; set_solver.
Qed.

(** When the pass raises, it does so in the iteration of some path [p],
    after the paths before it were handled. *)
Lemma find_changed_loop_raises ps changed s e s' :
  find_changed_loop fs ps changed s = (inl e, s') →
  ∃ pre p suf changed1 s1,
    ps = pre ++ p :: suf ∧
    find_changed_loop fs pre changed s = (inr changed1, s1) ∧
    find_changed_body fs p changed1 s1 = (inl e, s').
Proof.
  revert changed s. induction ps as [|p0 ps IH]; intros changed s Hrun; [done|].
  rewrite find_changed_loop_cons in Hrun.
  destruct (find_changed_body fs p0 changed s) as [[e0|changed0] s0] eqn:Hbody.
  - inversion Hrun; subst. by exists [], p0, ps, changed, s.
  - destruct (IH _ _ Hrun) as (pre & p & suf & changed1 & s1 & -> & Hpre & Hp).
    exists (p0 :: pre), p, suf, changed1, s1. split_and!; [done| |done].
    by rewrite find_changed_loop_cons, Hbody.
Qed.

(** An iteration that raises leaves the dict as it found it. *)
Lemma find_changed_body_raises p changed s e s' :
  find_changed_body fs p changed s = (inl e, s') →
  file_data s' = file_data s ∧
  (file_data s !! p = None ∧ e = KeyError p ∨
   ∃ old qs, file_data s !! p = Some old ∧ verdict fs p old = (inl e, qs)).
Proof.
  intros Hbody.
  destruct (find_changed_body_view p changed s) as [|old e' qs|];
    inversion Hbody; subst; simpl; eauto 10.
Qed.

(** A verdict that writes [new] is followed, under the same answers, by a
    verdict that changes nothing and reports nothing. *)
Lemma verdict_settled p old new reported qs :
  verdict fs p old = (inr (new, reported), qs) →
  verdict fs p new = (inr (new, false), [QStat p]).
Proof.
  unfold verdict.
  destruct (FileSystemCache.stat fs p) as [[]|st]; try done.
  - intros [= <- _ _]. by rewrite bool_decide_false by naive_solver.
  - destruct old as [o|].
    + case_decide as Hmeta.
      * destruct (FileSystemCache.md5 fs p) as [e|h]; [done|].
        intros [= <- _ _]. simpl. rewrite decide_False; [done|naive_solver].
      * intros [= <- _ _]. by rewrite decide_False.
    + destruct (FileSystemCache.md5 fs p) as [e|h]; [done|].
      intros [= <- _ _]. simpl. rewrite decide_False; [done|naive_solver].
Qed.

(** A pass over settled entries returns, reports nothing and keeps the
    dict. *)
Lemma find_changed_loop_settled ps changed s :
  (∀ p, p ∈ ps →
     ∃ v qs, file_data s !! p = Some v ∧ verdict fs p v = (inr (v, false), qs)) →
  ∃ ext,
    find_changed_loop fs ps changed s =
      (inr changed, {| file_data := file_data s; calls := calls s ++ ext |}).
Proof.
  revert s. induction ps as [|p0 ps IH]; intros s Hall.
  { exists []. destruct s. simpl. by rewrite app_nil_r. }
  destruct (Hall p0) as (v & qs & Hv & Hverd); [by left|].
  rewrite find_changed_loop_cons, (find_changed_body_verdict fs p0 changed s v Hv), Hverd.
  rewrite insert_id by done.
  destruct (IH {| file_data := file_data s; calls := calls s ++ qs |})
    as [ext ->].
  { intros p Hp. apply Hall. by right. }
  simpl. exists (qs ++ ext). by rewrite app_assoc.
Qed.

(** A pass returns when no watched path makes the accessor raise and every
    path of the iteration has a dict entry. *)
Lemma find_changed_loop_total ps changed s :
  NoDup ps →
  (∀ p, p ∈ ps →
     ∃ old v qs, file_data s !! p = Some old ∧ verdict fs p old = (inr v, qs)) →
  ∃ changed' s', find_changed_loop fs ps changed s = (inr changed', s').
Proof.
  revert changed s. induction ps as [|p0 ps IH]; intros changed s Hnd Hall.
  { by exists changed, s. }
  apply NoDup_cons in Hnd as [Hp0 Hnd].
  destruct (Hall p0) as (old & [new r] & qs & Hold & Hv); [by left|].
  rewrite find_changed_loop_cons, (find_changed_body_verdict fs p0 changed s old Hold), Hv.
  apply IH; [done|].
  intros p Hp. simpl.
  rewrite lookup_insert_ne by (intros ->; done).
  apply Hall. by right.
Qed.

End Loop.

(** ** One call of [find_changed] *)

Section Poll.
Variable fs : FileSystemCache.t.

Local Abbreviation about p := (λ q : query, query_path q = p).

Lemma find_changed_run order self :
  find_changed_loop fs order ∅ {| file_data := _file_data self; calls := [] |} =
    (outcome (find_changed fs order self),
     {| file_data := _file_data (after (find_changed fs order self));
        calls := queries (find_changed fs order self) |}).
Proof.
  unfold find_changed. simpl.
  by destruct (find_changed_loop fs order ∅ _) as [r [fd log]].
Qed.

Lemma find_changed_paths order self :
  _paths (after (find_changed fs order self)) = _paths self.
Proof. reflexivity. Qed.

(** What a pass that returns has done for a watched path. *)
Lemma find_changed_returned order self changed p :
  enumerates order (_paths self) →
  outcome (find_changed fs order self) = inr changed →
  p ∈ _paths self →
  ∃ old new reported qs,
    _file_data self !! p = Some old ∧
    verdict fs p old = (inr (new, reported), qs) ∧
    _file_data (after (find_changed fs order self)) !! p = Some new ∧
    (p ∈ changed ↔ reported = true) ∧
    filter (about p) (queries (find_changed fs order self)) = qs.
Proof.
  intros [Hnd Hmem] Hout Hp. apply Hmem in Hp.
  pose proof (find_changed_run order self) as Hrun. rewrite Hout in Hrun.
  destruct (find_changed_loop_returns fs _ _ _ _ _ Hnd Hrun p Hp)
    as (old & new & r & qs & Hold & Hv & Hnew & Hrep).
  exists old, new, r, qs. simpl in Hold, Hnew. split_and!; [done..| |].
  - rewrite Hrep. set_solver.
  - destruct (find_changed_loop_queries fs order ∅
      {| file_data := _file_data self; calls := [] |} Hnd)
      as (ext & Hcalls & _ & _ & Hret).
    change (queries (find_changed fs order self)) with
      (calls (find_changed_loop fs order ∅
                {| file_data := _file_data self; calls := [] |}).2).
    rewrite Hcalls. simpl.
    rewrite (Hret changed Hout p Hp).
    unfold path_queries. simpl. by rewrite Hold, Hv.
Qed.

(** What any pass, returning or not, can have done to an entry. *)
Lemma find_changed_entry order self p :
  NoDup order →
  _file_data (after (find_changed fs order self)) !! p = _file_data self !! p ∨
  ∃ old new reported qs,
    _file_data self !! p = Some old ∧
    verdict fs p old = (inr (new, reported), qs) ∧
    _file_data (after (find_changed fs order self)) !! p = Some new.
Proof.
  intros Hnd.
  apply (find_changed_loop_entry fs order ∅
           {| file_data := _file_data self; calls := [] |} p Hnd).
Qed.

(** The accessor calls of any pass about one path. *)
Lemma find_changed_queries order self p :
  NoDup order →
  filter (about p) (queries (find_changed fs order self)) = [] ∨
  filter (about p) (queries (find_changed fs order self))
    = path_queries fs (_file_data self) p.
Proof.
  intros Hnd.
  destruct (find_changed_loop_queries fs order ∅
    {| file_data := _file_data self; calls := [] |} Hnd)
    as (ext & Hcalls & _ & Hany & _).
  change (queries (find_changed fs order self)) with
    (calls (find_changed_loop fs order ∅
              {| file_data := _file_data self; calls := [] |}).2).
  rewrite Hcalls. apply Hany.
Qed.

(** The pass returns when every watched path has an entry and the accessor
    raises nothing but [FileNotFoundError] from [stat] on the watched
    paths. *)
Lemma find_changed_total order self :
  enumerates order (_paths self) →
  _paths self ⊆ dom (_file_data self) →
  (∀ p, p ∈ _paths self →
     FileSystemCache.stat fs p = inl FileNotFoundError ∨
     ∃ st h, FileSystemCache.stat fs p = inr st ∧
             FileSystemCache.md5 fs p = inr h) →
  ∃ changed, outcome (find_changed fs order self) = inr changed.
Proof.
  intros [Hnd Hmem] Hdom Hfs.
  destruct (find_changed_loop_total fs order ∅
    {| file_data := _file_data self; calls := [] |} Hnd) as (changed & s' & Hrun).
  - intros p Hp%Hmem. simpl.
    pose proof (Hdom p Hp) as [old Hold]%elem_of_dom.
    exists old. unfold verdict.
    destruct (Hfs p Hp) as [->|(st & h & -> & ->)]; [by eauto|].
    destruct old as [o|]; [case_decide|]; eauto.
  - exists changed. unfold find_changed. simpl. by rewrite Hrun.
Qed.

End Poll.

(** ** Adding and removing paths *)

Lemma add_watched_paths_paths ps self :
  _paths (add_watched_paths ps self)
    = _paths self ∪ list_to_set (second_pass ps).
Proof. reflexivity. Qed.

Lemma add_watched_paths_file_data ps self p :
  _file_data (add_watched_paths ps self) !! p =
    if decide (p ∈ first_pass ps ∧ p ∉ _paths self) then Some None
    else _file_data self !! p.
Proof.
  unfold add_watched_paths. simpl.
  generalize (_file_data self) as fd.
  induction (first_pass ps) as [|a l IH]; intros fd; cbn [foldl].
  - rewrite decide_False; [done|]. intros [[]%elem_of_nil _].
  - rewrite IH. destruct (decide (a = p)) as [->|Hne].
    + destruct (decide (p ∉ _paths self)) as [Hp|Hp].
      * rewrite lookup_insert_eq.
        rewrite (decide_True (P := p ∈ p :: l ∧ _)) by (split; [left|done]).
        by case_decide.
      * rewrite !decide_False; naive_solver.
    + assert (∀ fd' : gmap path (option FileData),
                (if decide (a ∉ _paths self) then <[a:=None]> fd' else fd') !! p
                = fd' !! p) as ->.
      { intros fd'. destruct (decide (a ∉ _paths self)); [|done].
        by rewrite lookup_insert_ne. }
      apply decide_ext. rewrite elem_of_cons. naive_solver.
Qed.

Lemma remove_watched_paths_paths ps self :
  _paths (remove_watched_paths ps self)
    = _paths self ∖ list_to_set (second_pass ps).
Proof. reflexivity. Qed.

Lemma remove_watched_paths_file_data ps self p :
  _file_data (remove_watched_paths ps self) !! p =
    if decide (p ∈ first_pass ps) then None else _file_data self !! p.
Proof.
  unfold remove_watched_paths. simpl.
  generalize (_file_data self) as fd.
  induction (first_pass ps) as [|a l IH]; intros fd; cbn [foldl].
  - rewrite decide_False; [done|]. apply not_elem_of_nil.
  - assert ((if decide (is_Some (fd !! a)) then delete a fd else fd)
            = delete a fd) as ->.
    { destruct (decide (is_Some (fd !! a))) as [Ha|Ha]; [done|].
      symmetry. apply delete_id. by apply eq_None_not_Some. }
    rewrite IH. destruct (decide (a = p)) as [->|Hne].
    + rewrite lookup_delete_eq, (decide_True (P := p ∈ p :: l)) by left.
      by case_decide.
    + rewrite lookup_delete_ne by done.
      apply decide_ext. rewrite elem_of_cons. naive_solver.
Qed.

(** ** Settled watchers *)

Lemma find_changed_settles fs order self changed :
  enumerates order (_paths self) →
  outcome (find_changed fs order self) = inr changed →
  settled fs (after (find_changed fs order self)).
Proof.
  intros Horder Hout p Hp. rewrite find_changed_paths in Hp.
  destruct (find_changed_returned fs order self changed p Horder Hout Hp)
    as (old & new & r & qs & _ & Hv & Hnew & _).
  exists new, [QStat p]. split; [done|]. by eapply verdict_settled.
Qed.

Lemma settled_find_changed fs order self :
  settled fs self →
  enumerates order (_paths self) →
  outcome (find_changed fs order self) = inr ∅ ∧
  after (find_changed fs order self) = self.
Proof.
  intros Hset [_ Hmem].
  destruct (find_changed_loop_settled fs order ∅
    {| file_data := _file_data self; calls := [] |}) as [ext Hrun].
  { intros p Hp%Hmem. apply (Hset p Hp). }
  unfold find_changed. rewrite Hrun. simpl. by destruct self.
Qed.

Lemma settled_poll_many fs orders self :
  settled fs self →
  Forall (λ order, enumerates order (_paths self)) orders →
  Forall (λ r, outcome r = inr ∅ ∧ after r = self) (poll_many fs orders self).
Proof.
  intros Hset Horders.
  induction Horders as [|order orders Horder _ IH]; cbn [poll_many].
  { constructor. }
  destruct (settled_find_changed fs order self Hset Horder) as [Hout Hafter].
  constructor; [done|]. by rewrite Hafter.
Qed.

(** ** Concrete watchers, accessors and goals about them *)

Lemma enumerates_list_to_set order (X : gset path) :
  NoDup order → X = list_to_set order → enumerates order X.
Proof. intros Hnd ->. split; [done|]. intros p. by rewrite elem_of_list_to_set. Qed.

Lemma enumerates_elements (X : gset path) : enumerates (elements X) X.
Proof. split; [apply NoDup_elements|]. intros p. apply elem_of_elements. Qed.

(** Goals about concrete watchers and accessors, settled by evaluation. *)
Ltac concrete :=
  first [ reflexivity
        | vm_compute; reflexivity
        | apply enumerates_list_to_set; [compute_done | vm_compute; reflexivity]
        | compute_done
        | vm_compute; done ].

(** * The poll algorithm, case by case *)

(** C1.  A watched path with a Present entry whose stat succeeds with a
    different size or mtime: a pass that returns has asked for the content
    hash, has replaced the entry by [FileData(st.st_mtime, st.st_size, md5)]
    whatever the comparison says, and reports the path exactly when the size
    or the hash differs from the old entry.  A change of mtime alone is not
    reported. *)
Theorem find_changed_metadata_changed fs order self p old st changed :
  enumerates order (_paths self) →
  p ∈ _paths self →
  _file_data self !! p = Some (Some old) →
  FileSystemCache.stat fs p = inr st →
  os.st_size st ≠ st_size old ∨ os.st_mtime st ≠ st_mtime old →
  outcome (find_changed fs order self) = inr changed →
  ∃ h,
    FileSystemCache.md5 fs p = inr h ∧
    QMd5 p ∈ queries (find_changed fs order self) ∧
    _file_data (after (find_changed fs order self)) !! p
      = Some (Some (mkFileData (os.st_mtime st) (os.st_size st) h)) ∧
    (p ∈ changed ↔ os.st_size st ≠ st_size old ∨ h ≠ md5 old) ∧
    (os.st_size st = st_size old → h = md5 old → p ∉ changed).
Proof.
  intros Horder Hp Hold Hst Hmeta Hout.
  destruct (find_changed_returned fs order self changed p Horder Hout Hp)
    as (old' & new & r & qs & Hold' & Hv & Hnew & Hrep & Hqs).
  rewrite Hold in Hold'. injection Hold' as <-.
  unfold verdict in Hv. rewrite Hst, decide_True in Hv by done.
  destruct (FileSystemCache.md5 fs p) as [e|h]; [done|].
  injection Hv as <- <- <-.
  exists h. split_and!; [done| |done| |].
  - eapply (list_elem_of_filter (λ q, query_path q = p)).
    rewrite Hqs. set_solver.
  - by rewrite Hrep, bool_decide_eq_true.
  - rewrite Hrep, bool_decide_eq_true. naive_solver.
Qed.

Lemma find_changed_metadata_changed_witness :
  ∃ h,
    FileSystemCache.md5 a_touched "/a" = inr h ∧
    QMd5 "/a" ∈ queries (find_changed a_touched ["/a"] seen_x) ∧
    _file_data (after (find_changed a_touched ["/a"] seen_x)) !! "/a"
      = Some (Some (mkFileData 200 1 h)) ∧
    ("/a" ∈ (∅ : gset path) ↔ 1 ≠ 1 ∨ h ≠ "x") ∧
    (1 = 1 → h = "x" → "/a" ∉ (∅ : gset path)).
Proof.
  apply (find_changed_metadata_changed a_touched ["/a"] seen_x "/a"
           (mkFileData 100 1 "x") {| os.st_size := 1; os.st_mtime := 200 |} ∅);
    [concrete..| |concrete].
  by right.
Defined.

(** The fast path: same size and same mtime. *)
Lemma same_metadata_skipped fs order self p old st :
  enumerates order (_paths self) →
  p ∈ _paths self →
  _file_data self !! p = Some (Some old) →
  FileSystemCache.stat fs p = inr st →
  os.st_size st = st_size old →
  os.st_mtime st = st_mtime old →
  (∀ changed, outcome (find_changed fs order self) = inr changed → p ∉ changed) ∧
  (QMd5 p ∉ queries (find_changed fs order self)) ∧
  _file_data (after (find_changed fs order self)) !! p = Some (Some old).
Proof.
  intros Horder Hp Hold Hst Hsize Hmtime.
  assert (Hv : verdict fs p (Some old) = (inr (Some old, false), [QStat p])).
  { unfold verdict. rewrite Hst, decide_False; [done|naive_solver]. }
  split_and!.
  - intros changed Hout.
    destruct (find_changed_returned fs order self changed p Horder Hout Hp)
      as (old' & new & r & qs & Hold' & Hv' & _ & Hrep & _).
    rewrite Hold in Hold'. injection Hold' as <-.
    rewrite Hv in Hv'. injection Hv' as <- <- <-. by rewrite Hrep.
  - intros Hq.
    assert (Hin : QMd5 p ∈ filter (λ q, query_path q = p)
                             (queries (find_changed fs order self))).
    { by apply list_elem_of_filter. }
    destruct (find_changed_queries fs order self p (proj1 Horder)) as [Hqs|Hqs];
      rewrite Hqs in Hin.
    + by apply elem_of_nil in Hin.
    + unfold path_queries in Hin. rewrite Hold, Hv in Hin. set_solver.
  - destruct (find_changed_entry fs order self p (proj1 Horder))
      as [->|(old' & new & r & qs & Hold' & Hv' & ->)]; [done|].
    rewrite Hold in Hold'. injection Hold' as <-.
    rewrite Hv in Hv'. by injection Hv' as <- <- <-.
Qed.

(** C2.  A watched path with a Present entry whose stat succeeds with the
    same size and mtime: however the pass ends, it has not asked for the
    content hash of the path and has left its entry alone, and a pass that
    returns does not report the path.  What [md5] would have answered plays
    no part, so a change of content under the same size and mtime goes
    unnoticed. *)
Theorem find_changed_metadata_unchanged fs order self p old st :
  enumerates order (_paths self) →
  p ∈ _paths self →
  _file_data self !! p = Some (Some old) →
  FileSystemCache.stat fs p = inr st →
  os.st_size st = st_size old →
  os.st_mtime st = st_mtime old →
  (∀ changed, outcome (find_changed fs order self) = inr changed → p ∉ changed) ∧
  (QMd5 p ∉ queries (find_changed fs order self)) ∧
  _file_data (after (find_changed fs order self)) !! p = Some (Some old).
Proof. apply same_metadata_skipped. Qed.

Lemma find_changed_metadata_unchanged_witness :
  FileSystemCache.md5 a_rewritten "/a" ≠ inr "x" ∧
  (∀ changed,
     outcome (find_changed a_rewritten ["/a"] seen_x) = inr changed →
     "/a" ∉ changed) ∧
  (QMd5 "/a" ∉ queries (find_changed a_rewritten ["/a"] seen_x)) ∧
  _file_data (after (find_changed a_rewritten ["/a"] seen_x)) !! "/a"
    = Some (Some (mkFileData 100 1 "x")).
Proof.
  split; [done|].
  apply (find_changed_metadata_unchanged a_rewritten ["/a"] seen_x "/a"
           (mkFileData 100 1 "x") {| os.st_size := 1; os.st_mtime := 100 |});
    concrete.
Defined.

(** C3.  A watched path whose stat raises [FileNotFoundError]: a pass that
    returns reports the path and stores [None] when the entry was Present,
    and neither reports nor changes it when the entry was [None] already.
    The exception is caught in the iteration of that path: when the pass
    raises, it is not there. *)
Theorem find_changed_not_found fs order self p old :
  enumerates order (_paths self) →
  p ∈ _paths self →
  _file_data self !! p = Some old →
  FileSystemCache.stat fs p = inl FileNotFoundError →
  (∀ changed,
     outcome (find_changed fs order self) = inr changed →
     (p ∈ changed ↔ old ≠ None) ∧
     _file_data (after (find_changed fs order self)) !! p = Some None) ∧
  (∀ pre suf,
     order = pre ++ p :: suf →
     ∀ changed, outcome (find_changed fs pre self) = inr changed →
     ∃ changed', outcome (find_changed fs (pre ++ [p]) self) = inr changed').
Proof.
  intros Horder Hp Hold Hst.
  assert (Hv : verdict fs p old = (inr (None, bool_decide (old ≠ None)), [QStat p])).
  { unfold verdict. by rewrite Hst. }
  split.
  - intros changed Hout.
    destruct (find_changed_returned fs order self changed p Horder Hout Hp)
      as (old' & new & r & qs & Hold' & Hv' & Hnew & Hrep & _).
    rewrite Hold in Hold'. injection Hold' as <-.
    rewrite Hv in Hv'. injection Hv' as <- <- <-.
    by rewrite Hrep, bool_decide_eq_true.
  - intros pre suf -> changed Hout.
    destruct Horder as [Hnd _].
    apply NoDup_app in Hnd as (_ & Hpre & _).
    assert (p ∉ pre) as Hnotin by (intros Hin; apply (Hpre p Hin); left).
    unfold find_changed in *. simpl in *.
    rewrite find_changed_loop_app.
    destruct (find_changed_loop fs pre ∅ _) as [r1 s1] eqn:Hrun.
    simpl in Hout. subst r1.
    assert (file_data s1 !! p = Some old) as Hs1.
    { replace s1 with (find_changed_loop fs pre ∅
        {| file_data := _file_data self; calls := [] |}).2 by by rewrite Hrun.
      by rewrite find_changed_loop_frame. }
    rewrite find_changed_loop_cons,
      (find_changed_body_verdict fs p changed s1 old Hs1), Hv.
    simpl. eauto.
Qed.

Lemma find_changed_not_found_witness :
  (∀ changed,
     outcome (find_changed no_files ["/a"] seen_x) = inr changed →
     ("/a" ∈ changed ↔ Some (mkFileData 100 1 "x") ≠ None) ∧
     _file_data (after (find_changed no_files ["/a"] seen_x)) !! "/a"
       = Some None) ∧
  (∀ pre suf,
     ["/a"] = pre ++ "/a" :: suf →
     ∀ changed, outcome (find_changed no_files pre seen_x) = inr changed →
     ∃ changed',
       outcome (find_changed no_files (pre ++ ["/a"]) seen_x) = inr changed').
Proof.
  apply (find_changed_not_found no_files ["/a"] seen_x "/a"
           (Some (mkFileData 100 1 "x"))); concrete.
Defined.

(** C4.  A path that is not watched yet, on which stat succeeds, is added
    with [add_watched_paths]: the next pass, if it returns, reports the path
    and records [FileData(st.st_mtime, st.st_size, md5)] for it; every
    later pass against the same answers returns the empty set. *)
Theorem added_path_reported_once fs self l p st order changed :
  p ∉ _paths self →
  p ∈ l →
  FileSystemCache.stat fs p = inr st →
  enumerates order (_paths (add_watched_paths (Collection l) self)) →
  outcome (find_changed fs order (add_watched_paths (Collection l) self))
    = inr changed →
  p ∈ changed ∧
  (∃ h,
     FileSystemCache.md5 fs p = inr h ∧
     _file_data
       (after (find_changed fs order (add_watched_paths (Collection l) self)))
       !! p
     = Some (Some (mkFileData (os.st_mtime st) (os.st_size st) h))) ∧
  (∀ orders,
     Forall (λ o, enumerates o (_paths (add_watched_paths (Collection l) self)))
            orders →
     Forall (λ r, outcome r = inr ∅)
       (poll_many fs orders
          (after (find_changed fs order
                    (add_watched_paths (Collection l) self))))).
Proof.
  intros Hnew Hl Hst Horder Hout.
  set (w := add_watched_paths (Collection l) self) in *.
  assert (Hp : p ∈ _paths w).
  { unfold w. rewrite add_watched_paths_paths. simpl. set_solver. }
  assert (Hentry : _file_data w !! p = Some None).
  { unfold w. rewrite add_watched_paths_file_data. by rewrite decide_True. }
  destruct (find_changed_returned fs order w changed p Horder Hout Hp)
    as (old & new & r & qs & Hold & Hv & Hafter & Hrep & _).
  rewrite Hentry in Hold. injection Hold as <-.
  unfold verdict in Hv. rewrite Hst in Hv.
  destruct (FileSystemCache.md5 fs p) as [e|h]; [done|].
  injection Hv as <- <- <-.
  split_and!.
  - by apply Hrep.
  - by exists h.
  - intros orders Horders.
    eapply Forall_impl;
      [apply settled_poll_many; [by eapply find_changed_settles|done]|].
    by intros r [? _].
Qed.

Lemma added_path_reported_once_witness :
  "/a" ∈ ({["/a"]} : gset path) ∧
  (∃ h,
     FileSystemCache.md5 a_is_x "/a" = inr h ∧
     _file_data (after (find_changed a_is_x ["/a"] watching_a)) !! "/a"
     = Some (Some (mkFileData 100 1 h))) ∧
  (∀ orders,
     Forall (λ o, enumerates o (_paths watching_a)) orders →
     Forall (λ r, outcome r = inr ∅)
       (poll_many a_is_x orders
          (after (find_changed a_is_x ["/a"] watching_a)))).
Proof.
  apply (added_path_reported_once a_is_x init ["/a"] "/a"
           {| os.st_size := 1; os.st_mtime := 100 |} ["/a"] {["/a"]});
    concrete.
Defined.

(** C6.  When a pass returns, a second pass against the same answers of the
    accessor returns the empty set and leaves the watcher as the first pass
    left it. *)
Theorem find_changed_stabilizes fs order1 order2 self changed :
  enumerates order1 (_paths self) →
  enumerates order2 (_paths self) →
  outcome (find_changed fs order1 self) = inr changed →
  outcome (find_changed fs order2 (after (find_changed fs order1 self)))
    = inr ∅ ∧
  after (find_changed fs order2 (after (find_changed fs order1 self)))
    = after (find_changed fs order1 self).
Proof.
  intros Horder1 Horder2 Hout.
  apply settled_find_changed; [by eapply find_changed_settles|done].
Qed.

Lemma find_changed_stabilizes_witness :
  outcome (find_changed a_is_y ["/a"] (after (find_changed a_is_y ["/a"] seen_x)))
    = inr ∅ ∧
  after (find_changed a_is_y ["/a"] (after (find_changed a_is_y ["/a"] seen_x)))
    = after (find_changed a_is_y ["/a"] seen_x).
Proof.
  apply (find_changed_stabilizes a_is_y ["/a"] ["/a"] seen_x {["/a"]});
    concrete.
Defined.

(** * The key set of the dict and the watched set *)

Lemma find_changed_loop_dom fs ps changed s :
  dom (file_data (find_changed_loop fs ps changed s).2) = dom (file_data s).
Proof.
  revert changed s. induction ps as [|p0 ps IH]; intros changed s; [done|].
  rewrite find_changed_loop_cons.
  destruct (find_changed_body_view fs p0 changed s) as [| |old new r qs Hold Hv];
    simpl; try done.
  rewrite IH. simpl. rewrite dom_insert_L.
  apply (elem_of_dom_2 (D := gset path)) in Hold. set_solver.
Qed.

Lemma find_changed_dom fs order self :
  dom (_file_data (after (find_changed fs order self))) = dom (_file_data self).
Proof.
  apply (find_changed_loop_dom fs order ∅
           {| file_data := _file_data self; calls := [] |}).
Qed.

Lemma add_watched_paths_dom ps self :
  dom (_file_data (add_watched_paths ps self))
    = dom (_file_data self) ∪ (list_to_set (first_pass ps) ∖ _paths self).
Proof.
  apply set_eq. intros p.
  rewrite elem_of_dom, add_watched_paths_file_data, elem_of_union,
    elem_of_difference, elem_of_list_to_set, elem_of_dom.
  case_decide; naive_solver.
Qed.

Lemma remove_watched_paths_dom ps self :
  dom (_file_data (remove_watched_paths ps self))
    = dom (_file_data self) ∖ list_to_set (first_pass ps).
Proof.
  apply set_eq. intros p.
  rewrite elem_of_dom, remove_watched_paths_file_data, elem_of_difference,
    elem_of_list_to_set, elem_of_dom.
  case_decide; [|naive_solver].
  split; [by intros []%is_Some_None|naive_solver].
Qed.

Lemma init_lockstep : lockstep init.
Proof. unfold lockstep, init. simpl. by rewrite dom_empty_L. Qed.

Lemma perform_lockstep c self :
  lockstep self → described c self → lockstep (perform c self).
Proof.
  unfold lockstep. intros Hinv Hc.
  destruct c as [p data|ps|ps|fs order]; cbn [perform described] in *.
  - simpl. rewrite dom_insert_L, Hinv. set_solver.
  - rewrite add_watched_paths_dom, add_watched_paths_paths, Hc, Hinv.
    apply set_eq. intros p.
    rewrite !elem_of_union, elem_of_difference.
    destruct (decide (p ∈ _paths self)); naive_solver.
  - by rewrite remove_watched_paths_dom, remove_watched_paths_paths, Hc, Hinv.
  - by rewrite find_changed_dom.
Qed.

(** Every watched path keeps a key under all calls but a removal whose
    argument is exhausted by the first traversal. *)
Lemma perform_covered c self :
  covered self →
  (∀ ps, c = RemoveWatchedPaths ps → second_pass ps = first_pass ps) →
  covered (perform c self).
Proof.
  unfold covered. intros Hinv Hc.
  destruct c as [p data|ps|ps|fs order]; cbn [perform].
  - simpl. rewrite dom_insert_L. set_solver.
  - rewrite add_watched_paths_dom, add_watched_paths_paths.
    intros p. rewrite !elem_of_union, elem_of_difference.
    destruct (decide (p ∈ _paths self)), ps; simpl; set_solver.
  - rewrite remove_watched_paths_dom, remove_watched_paths_paths, (Hc ps eq_refl).
    set_solver.
  - by rewrite find_changed_dom.
Qed.

(** C5, as the code has it.  The key set of [_file_data] equals [_paths]
    on a new watcher and stays equal under [add_watched_paths] and
    [remove_watched_paths] (with arguments that can be traversed twice),
    under [find_changed], and under [set_file_data] on a watched path. *)
Theorem lockstep_preserved cs self :
  lockstep self →
  described_all cs self →
  lockstep (perform_all cs self).
Proof.
  revert self. induction cs as [|c cs IH]; intros self Hinv Hcs; [done|].
  destruct Hcs as [Hc Hcs]. simpl. apply IH; [|done].
  by apply perform_lockstep.
Qed.

Lemma lockstep_preserved_witness :
  lockstep
    (perform_all
       [AddWatchedPaths (Collection ["/a"; "/b"]);
        FindChanged a_is_x ["/a"; "/b"];
        SetFileData "/b" (mkFileData 100 5 "b");
        RemoveWatchedPaths (Collection ["/a"]);
        FindChanged a_is_y ["/b"]]
       init).
Proof.
  apply (lockstep_preserved _ init); [apply init_lockstep|].
  repeat split; concrete.
Defined.

(** C5 as stated fails: [set_file_data] is public and gives a key to a path
    that is not watched. *)
Lemma set_file_data_breaks_lockstep :
  lockstep init ∧
  ¬ lockstep (perform (SetFileData "/a" (mkFileData 100 1 "x")) init).
Proof.
  split; [apply init_lockstep|].
  unfold lockstep. simpl. rewrite dom_insert_L, dom_empty_L. set_solver.
Qed.

(** A removal with a one-shot iterator deletes the key and leaves the path
    watched; the next pass raises [KeyError]. *)
Example remove_with_iterator :
  outcome (find_changed a_is_x ["/a"]
             (remove_watched_paths (Iterator ["/a"]) watching_a))
    = inl (KeyError "/a").
Proof. concrete. Qed.

(** * Only watched paths are reported *)

Lemma find_changed_subseteq fs order self changed :
  enumerates order (_paths self) →
  outcome (find_changed fs order self) = inr changed →
  changed ⊆ _paths self.
Proof.
  intros [_ Hmem] Hout p Hp. apply Hmem.
  destruct (decide (p ∈ order)) as [|Hnotin]; [done|].
  pose proof (find_changed_run fs order self) as Hrun. rewrite Hout in Hrun.
  apply (find_changed_loop_changed_frame fs _ _ _ _ _ p Hrun Hnotin) in Hp.
  set_solver.
Qed.

Lemma perform_unwatched c self p :
  p ∉ _paths self → ¬ adds c p → p ∉ _paths (perform c self).
Proof.
  intros Hp Hadd. destruct c as [q data|ps|ps|fs order]; cbn [perform adds] in *.
  - done.
  - rewrite add_watched_paths_paths, elem_of_union, elem_of_list_to_set.
    naive_solver.
  - rewrite remove_watched_paths_paths. set_solver.
  - done.
Qed.

Lemma unwatched_never_reported cs self p :
  p ∉ _paths self →
  ordered_all cs self →
  Forall (λ c, ¬ adds c p) cs →
  never_reported p (polls cs self).
Proof.
  unfold never_reported.
  revert self. induction cs as [|c cs IH]; intros self Hp Hord Hadds; simpl.
  { constructor. }
  destruct Hord as [Hc Hord]. apply Forall_cons in Hadds as [Hadd Hadds].
  apply Forall_app. split.
  - destruct c as [| | |fs order]; try constructor; [|constructor].
    intros changed Hout Hin.
    by apply Hp, (find_changed_subseteq fs order self changed Hc Hout).
  - apply IH; [by apply perform_unwatched|done..].
Qed.

(** C7.  The set a pass returns is a subset of the watched set of that
    moment, and as a set has no duplicates.  Hence a path that was never
    added is never reported, whatever the accessor answers; and after
    [remove_watched_paths] has removed a path, no pass reports it unless a
    later call adds it again. *)
Theorem reported_paths_are_watched :
  (∀ fs order self changed,
     enumerates order (_paths self) →
     outcome (find_changed fs order self) = inr changed →
     changed ⊆ _paths self ∧ NoDup (elements changed)) ∧
  (∀ p cs,
     ordered_all cs init →
     Forall (λ c, ¬ adds c p) cs →
     never_reported p (polls cs init)) ∧
  (∀ p l self cs,
     p ∈ l →
     ordered_all cs (remove_watched_paths (Collection l) self) →
     Forall (λ c, ¬ adds c p) cs →
     never_reported p (polls cs (remove_watched_paths (Collection l) self))).
Proof.
  split_and!.
  - intros fs order self changed Horder Hout. split.
    + by eapply find_changed_subseteq.
    + apply NoDup_elements.
  - intros p cs. apply unwatched_never_reported. set_solver.
  - intros p l self cs Hl. apply unwatched_never_reported.
    rewrite remove_watched_paths_paths. simpl. set_solver.
Qed.

Lemma reported_paths_are_watched_witness :
  never_reported "/a"
    (polls [FindChanged a_is_y ["/b"];
            SetFileData "/a" (mkFileData 100 1 "x");
            FindChanged no_files ["/b"]]
       (remove_watched_paths (Collection ["/a"])
          (after (find_changed b_and_unreadable_a ["/b"; "/a"] watching_ab)))).
Proof.
  apply (proj2 (proj2 reported_paths_are_watched) "/a" ["/a"]).
  - by left.
  - repeat split; concrete.
  - repeat constructor; by intros [].
Defined.

(** * Exceptions of the accessor *)

Lemma watcher_eq (w1 w2 : FileSystemWatcher) :
  _paths w1 = _paths w2 → _file_data w1 = _file_data w2 → w1 = w2.
Proof. destruct w1, w2. simpl. by intros -> ->. Qed.

Lemma accessor_raises_verdict fs p old e :
  accessor_raises fs p old e ↔ ∃ qs, verdict fs p old = (inl e, qs).
Proof.
  unfold accessor_raises, verdict. split.
  - intros [[-> Hne]|(st & -> & -> & Hold)].
    + destruct e; eauto. done.
    + destruct old as [o|]; [rewrite decide_True by done|]; eauto.
  - intros [qs Hv].
    destruct (FileSystemCache.stat fs p) as [e'|st] eqn:Hst.
    + left. destruct e'; by simplify_eq.
    + right. exists st. split; [done|].
      destruct old as [o|]; [case_decide; [|done]|];
        destruct (FileSystemCache.md5 fs p); by simplify_eq.
Qed.

(** A pass that raises in the iteration of [p] ends there: it is the pass
    over the paths before [p], followed by the accessor calls made for [p]
    up to the one that raised. *)
Lemma find_changed_raises_at fs pre p rest self changed old e qs :
  outcome (find_changed fs pre self) = inr changed →
  _file_data (after (find_changed fs pre self)) !! p = Some old →
  verdict fs p old = (inl e, qs) →
  find_changed fs (pre ++ p :: rest) self =
    {| outcome := inl e;
       after := after (find_changed fs pre self);
       queries := queries (find_changed fs pre self) ++ qs |}.
Proof.
  intros Hout Hold Hv.
  pose proof (find_changed_run fs pre self) as Hrun. rewrite Hout in Hrun.
  set (s1 := {| file_data := _file_data (after (find_changed fs pre self));
                calls := queries (find_changed fs pre self) |}) in *.
  unfold find_changed at 1.
  rewrite find_changed_loop_app, Hrun, find_changed_loop_cons,
    (find_changed_body_verdict fs p changed s1 old Hold), Hv.
  reflexivity.
Qed.

(** C8.  When the accessor raises in the iteration of a path [p] (anything
    but [FileNotFoundError] from [stat], or anything from [md5]), the pass
    raises that same exception and ends there: the paths after [p] are not
    visited, the dict is as the iterations before [p] left it, and the entry
    of [p] is the one it had when [find_changed] was called. *)
Theorem find_changed_error_propagates fs self pre p suf old e changed :
  enumerates (pre ++ p :: suf) (_paths self) →
  outcome (find_changed fs pre self) = inr changed →
  _file_data self !! p = Some old →
  accessor_raises fs p old e →
  outcome (find_changed fs (pre ++ p :: suf) self) = inl e ∧
  find_changed fs (pre ++ p :: suf) self = find_changed fs (pre ++ [p]) self ∧
  after (find_changed fs (pre ++ p :: suf) self)
    = after (find_changed fs pre self) ∧
  _file_data (after (find_changed fs (pre ++ p :: suf) self)) !! p = Some old.
Proof.
  intros [Hnd _] Hout Hold [qs Hv]%accessor_raises_verdict.
  apply NoDup_app in Hnd as (_ & Hpre & _).
  assert (p ∉ pre) as Hnotin by (intros Hin; apply (Hpre p Hin); left).
  assert (_file_data (after (find_changed fs pre self)) !! p = Some old)
    as Hold'.
  { rewrite <- Hold.
    apply (find_changed_loop_frame fs pre ∅
             {| file_data := _file_data self; calls := [] |} p Hnotin). }
  rewrite !(find_changed_raises_at fs pre p _ self changed old e qs Hout Hold' Hv).
  by simpl.
Qed.

Lemma find_changed_error_propagates_witness :
  outcome (find_changed b_and_unreadable_a (["/b"] ++ "/a" :: []) watching_ab)
    = inl (OtherError "PermissionError") ∧
  find_changed b_and_unreadable_a (["/b"] ++ "/a" :: []) watching_ab
    = find_changed b_and_unreadable_a (["/b"] ++ ["/a"]) watching_ab ∧
  after (find_changed b_and_unreadable_a (["/b"] ++ "/a" :: []) watching_ab)
    = after (find_changed b_and_unreadable_a ["/b"] watching_ab) ∧
  _file_data
    (after (find_changed b_and_unreadable_a (["/b"] ++ "/a" :: []) watching_ab))
    !! "/a" = Some None.
Proof.
  apply (find_changed_error_propagates b_and_unreadable_a watching_ab
           ["/b"] "/a" [] None (OtherError "PermissionError") {["/b"]}).
  - concrete.
  - concrete.
  - concrete.
  - right. exists {| os.st_size := 1; os.st_mtime := 100 |}. by vm_compute.
Defined.

(** Conversely, a pass raises only from an iteration: with [KeyError] for a
    path without entry, or with what the accessor raised there. *)
Lemma find_changed_raised fs order self e :
  outcome (find_changed fs order self) = inl e →
  ∃ pre p suf changed,
    order = pre ++ p :: suf ∧
    outcome (find_changed fs pre self) = inr changed ∧
    after (find_changed fs order self) = after (find_changed fs pre self) ∧
    (_file_data (after (find_changed fs pre self)) !! p = None ∧ e = KeyError p ∨
     ∃ old, _file_data (after (find_changed fs pre self)) !! p = Some old ∧
            accessor_raises fs p old e).
Proof.
  intros Hout.
  pose proof (find_changed_run fs order self) as Hrun. rewrite Hout in Hrun.
  destruct (find_changed_loop_raises fs _ _ _ _ _ Hrun)
    as (pre & p & suf & changed & s1 & -> & Hpre & Hbody).
  exists pre, p, suf, changed.
  assert (outcome (find_changed fs pre self) = inr changed) as Hout1.
  { unfold find_changed. by rewrite Hpre. }
  assert (file_data s1 = _file_data (after (find_changed fs pre self))) as Hs1.
  { unfold find_changed. by rewrite Hpre. }
  apply find_changed_body_raises in Hbody as [Hfd Hwhy].
  split_and!; [done..| |].
  - apply watcher_eq; [done|]. exact (eq_trans Hfd Hs1).
  - rewrite <- Hs1.
    destruct Hwhy as [|(old & qs & Hold & Hv)]; [by left|].
    right. exists old. split; [done|]. apply accessor_raises_verdict. eauto.
Qed.

(** * The number of accessor calls *)

Lemma count_query_about q log :
  count_query q log =
    length (filter (λ q', q' = q)
              (filter (λ q', query_path q' = query_path q) log)).
Proof.
  unfold count_query. f_equal. rewrite list_filter_filter.
  apply list_filter_iff. intros q'. split; [by intros ->|by intros [-> _]].
Qed.

Lemma verdict_count fs p old q :
  (length (filter (λ q', q' = q) (verdict fs p old).2) ≤ 2)%nat.
Proof.
  unfold verdict.
  destruct (FileSystemCache.stat fs p) as [[]|st];
    [| | |destruct old as [o|];
           [destruct (decide _)|];
           try destruct (FileSystemCache.md5 fs p)];
    simpl; rewrite ?filter_cons, ?filter_nil;
    repeat case_decide; simplify_eq; simpl; lia.
Qed.

Lemma find_changed_count fs order self q :
  NoDup order →
  (count_query q (queries (find_changed fs order self)) ≤ 2)%nat.
Proof.
  intros Hnd. rewrite count_query_about.
  destruct (find_changed_queries fs order self (query_path q) Hnd) as [->| ->].
  - simpl. lia.
  - unfold path_queries. destruct (_file_data self !! query_path q).
    + apply verdict_count.
    + simpl. lia.
Qed.

Lemma find_changed_queries_watched fs order self q :
  enumerates order (_paths self) →
  q ∈ queries (find_changed fs order self) →
  query_path q ∈ _paths self.
Proof.
  intros [Hnd Hmem] Hq. apply Hmem.
  destruct (decide (query_path q ∈ order)) as [|Hnotin]; [done|].
  destruct (find_changed_loop_queries fs order ∅
    {| file_data := _file_data self; calls := [] |} Hnd)
    as (ext & Hcalls & Hout & _).
  simpl in Hcalls.
  assert (q ∈ filter (λ q', query_path q' = query_path q) ext) as Hin.
  { apply list_elem_of_filter. split; [done|]. by rewrite <- Hcalls. }
  rewrite (Hout (query_path q) Hnotin) in Hin. by apply elem_of_nil in Hin.
Qed.

(** C9, as the code has it.  [_update], called for a path on which stat
    succeeds, calls [stat] once and then [md5] once.  A pass calls [stat] at
    most twice and [md5] at most twice for a path (the stat of the loop and
    the stat and md5 of [_update], and one more md5 for the comparison when
    the size or the mtime of a Present entry has changed), and makes no call
    for a path that is not watched. *)
Theorem accessor_calls_bounded :
  (∀ fs p st s,
     FileSystemCache.stat fs p = inr st →
     calls (_update fs p s).2 = calls s ++ [QStat p; QMd5 p]) ∧
  (∀ fs order self p,
     enumerates order (_paths self) →
     (count_query (QStat p) (queries (find_changed fs order self)) ≤ 2)%nat ∧
     (count_query (QMd5 p) (queries (find_changed fs order self)) ≤ 2)%nat) ∧
  (∀ fs order self q,
     enumerates order (_paths self) →
     q ∈ queries (find_changed fs order self) →
     query_path q ∈ _paths self).
Proof.
  split_and!.
  - intros fs p st s Hst.
    unfold _update, bind, fs_stat, fs_md5, setitem. simpl. rewrite Hst.
    destruct (FileSystemCache.md5 fs p); simpl; by rewrite <- app_assoc.
  - intros fs order self p [Hnd _]. split; by apply find_changed_count.
  - apply find_changed_queries_watched.
Qed.

Lemma accessor_calls_bounded_witness :
  (count_query (QStat "/a") (queries (find_changed a_is_y ["/a"] seen_x)) ≤ 2)%nat ∧
  (count_query (QMd5 "/a") (queries (find_changed a_is_y ["/a"] seen_x)) ≤ 2)%nat.
Proof.
  apply (proj1 (proj2 accessor_calls_bounded) a_is_y ["/a"] seen_x "/a").
  concrete.
Defined.

(** C9 as stated fails: a path seen for the first time is statted twice,
    and a Present path whose size or mtime changed is statted twice and
    hashed twice. *)
Lemma path_queried_twice :
  (enumerates ["/a"] (_paths watching_a) ∧
   queries (find_changed a_is_x ["/a"] watching_a)
     = [QStat "/a"; QStat "/a"; QMd5 "/a"] ∧
   ¬ (count_query (QStat "/a")
        (queries (find_changed a_is_x ["/a"] watching_a)) ≤ 1)%nat) ∧
  (enumerates ["/a"] (_paths seen_x) ∧
   queries (find_changed a_is_y ["/a"] seen_x)
     = [QStat "/a"; QMd5 "/a"; QStat "/a"; QMd5 "/a"] ∧
   ¬ (count_query (QMd5 "/a")
        (queries (find_changed a_is_y ["/a"] seen_x)) ≤ 1)%nat).
Proof.
  split; (split_and!; [concrete|concrete|vm_compute; lia]).
Qed.

(** * Pre-seeding an entry *)

(** C10.  [set_file_data] stores a Present entry for any path and leaves the
    watched set as it is.  For a watched path whose entry was set this way,
    a pass whose stat answers the stored size and mtime does not report the
    path. *)
Theorem set_file_data_suppresses_report fs order self p data st :
  p ∈ _paths self →
  enumerates order (_paths self) →
  FileSystemCache.stat fs p = inr st →
  os.st_size st = st_size data →
  os.st_mtime st = st_mtime data →
  (∀ q data',
     _paths (set_file_data q data' self) = _paths self ∧
     _file_data (set_file_data q data' self) !! q = Some (Some data')) ∧
  (∀ changed,
     outcome (find_changed fs order (set_file_data p data self)) = inr changed →
     p ∉ changed).
Proof.
  intros Hp Horder Hst Hsize Hmtime. split.
  - intros q data'. split; [done|]. apply lookup_insert_eq.
  - eapply (same_metadata_skipped fs order (set_file_data p data self) p data st);
      try done.
    apply lookup_insert_eq.
Qed.

Lemma set_file_data_suppresses_report_witness :
  (∀ q data',
     _paths (set_file_data q data' watching_a) = _paths watching_a ∧
     _file_data (set_file_data q data' watching_a) !! q = Some (Some data')) ∧
  (∀ changed,
     outcome (find_changed a_is_x ["/a"]
                (set_file_data "/a" (mkFileData 100 1 "stale") watching_a))
       = inr changed →
     "/a" ∉ changed).
Proof.
  apply (set_file_data_suppresses_report a_is_x ["/a"] watching_a "/a"
           (mkFileData 100 1 "stale") {| os.st_size := 1; os.st_mtime := 100 |});
    concrete.
Defined.

(** * A run

    Watch ["/a"] while it does not exist, create it, poll again, overwrite
    it at another size, delete it, poll again. *)
Example create_overwrite_delete :
  outcome <$>
    polls [AddWatchedPaths (Collection ["/a"]);
           FindChanged no_files ["/a"];
           FindChanged a_is_x ["/a"];
           FindChanged a_is_x ["/a"];
           FindChanged a_is_y ["/a"];
           FindChanged no_files ["/a"];
           FindChanged no_files ["/a"]] init
  = [inr ∅; inr {["/a"]}; inr ∅; inr {["/a"]}; inr {["/a"]}; inr ∅].
Proof. concrete. Qed.

(** A touched file is hashed and its entry refreshed, and it is not
    reported. *)
Example touched_not_reported :
  outcome (find_changed a_touched ["/a"] seen_x) = inr ∅ ∧
  queries (find_changed a_touched ["/a"] seen_x)
    = [QStat "/a"; QMd5 "/a"; QStat "/a"; QMd5 "/a"] ∧
  _file_data (after (find_changed a_touched ["/a"] seen_x)) !! "/a"
    = Some (Some (mkFileData 200 1 "x")).
Proof. split_and!; concrete. Qed.

(** * Further properties of the watch-set methods *)

Lemma second_pass_first_pass ps p : p ∈ second_pass ps → p ∈ first_pass ps.
Proof. destruct ps; simpl; [done|]. by intros ?%elem_of_nil. Qed.

(** X1.  [add_watched_paths] with paths that are all watched already changes
    nothing: no entry is reset, so no report is caused. *)
Theorem add_watched_paths_already_watched ps self :
  (∀ p, p ∈ first_pass ps → p ∈ _paths self) →
  add_watched_paths ps self = self.
Proof.
  intros Hall. apply watcher_eq.
  - rewrite add_watched_paths_paths. apply set_eq. intros p.
    rewrite elem_of_union, elem_of_list_to_set.
    split; [|by left]. intros [|Hp%second_pass_first_pass]; auto.
  - apply map_eq. intros p. rewrite add_watched_paths_file_data.
    rewrite decide_False; [done|]. intros [Hp Hnot]. by apply Hnot, Hall.
Qed.

Lemma add_watched_paths_already_watched_witness :
  add_watched_paths (Collection ["/a"; "/a"]) seen_x = seen_x.
Proof.
  apply (add_watched_paths_already_watched (Collection ["/a"; "/a"]) seen_x).
  intros p Hp. repeat (apply elem_of_cons in Hp as [->|Hp]; [concrete|]).
  by apply elem_of_nil in Hp.
Defined.

(** A watched path whose entry is [None] and on which stat succeeds is
    reported by a pass that returns. *)
Lemma unset_path_reported fs order self p st changed :
  enumerates order (_paths self) →
  p ∈ _paths self →
  _file_data self !! p = Some None →
  FileSystemCache.stat fs p = inr st →
  outcome (find_changed fs order self) = inr changed →
  p ∈ changed.
Proof.
  intros Horder Hp Hentry Hst Hout.
  destruct (find_changed_returned fs order self changed p Horder Hout Hp)
    as (old & new & r & qs & Hold & Hv & _ & Hrep & _).
  rewrite Hentry in Hold. injection Hold as <-.
  unfold verdict in Hv. rewrite Hst in Hv.
  destruct (FileSystemCache.md5 fs p); [done|].
  injection Hv as <- <- <-. by apply Hrep.
Qed.

(** X2.  An entry stored with [set_file_data] for a path that is not watched
    is overwritten with [None] when the path is added afterwards, whatever
    was stored: the next pass that returns reports the path if stat
    succeeds on it. *)
Theorem seed_before_add_is_discarded fs order self l p data st changed :
  p ∉ _paths self →
  p ∈ l →
  FileSystemCache.stat fs p = inr st →
  enumerates order
    (_paths (add_watched_paths (Collection l) (set_file_data p data self))) →
  outcome
    (find_changed fs order
       (add_watched_paths (Collection l) (set_file_data p data self)))
    = inr changed →
  _file_data (add_watched_paths (Collection l) (set_file_data p data self)) !! p
    = Some None ∧
  p ∈ changed.
Proof.
  intros Hnew Hl Hst Horder Hout.
  set (w := add_watched_paths (Collection l) (set_file_data p data self)) in *.
  assert (Hentry : _file_data w !! p = Some None).
  { unfold w. rewrite add_watched_paths_file_data. by rewrite decide_True. }
  split; [done|].
  eapply (unset_path_reported fs order w p st); try done.
  unfold w. rewrite add_watched_paths_paths, elem_of_union,
    elem_of_list_to_set. by right.
Qed.

Lemma seed_before_add_is_discarded_witness :
  _file_data
    (add_watched_paths (Collection ["/a"])
       (set_file_data "/a" (mkFileData 100 1 "x") init)) !! "/a"
    = Some None ∧
  "/a" ∈ ({["/a"]} : gset path).
Proof.
  apply (seed_before_add_is_discarded a_is_x ["/a"] init ["/a"] "/a"
           (mkFileData 100 1 "x") {| os.st_size := 1; os.st_mtime := 100 |}
           {["/a"]}); concrete.
Defined.

(** X3.  [remove_watched_paths] with paths that are neither watched nor have
    an entry changes nothing and raises nothing. *)
Theorem remove_watched_paths_unknown ps self :
  (∀ p, p ∈ first_pass ps → (p ∉ _paths self) ∧ _file_data self !! p = None) →
  remove_watched_paths ps self = self.
Proof.
  intros Hall. apply watcher_eq.
  - rewrite remove_watched_paths_paths. apply set_eq. intros p.
    rewrite elem_of_difference, elem_of_list_to_set.
    split; [by intros []|]. intros Hp. split; [done|].
    intros Hin%second_pass_first_pass. by apply (Hall p Hin).
  - apply map_eq. intros p. rewrite remove_watched_paths_file_data.
    case_decide as Hin; [|done]. symmetry. by apply (Hall p Hin).
Qed.

Lemma remove_watched_paths_unknown_witness :
  remove_watched_paths (Collection ["/b"; "/c"]) seen_x = seen_x.
Proof.
  apply (remove_watched_paths_unknown (Collection ["/b"; "/c"]) seen_x).
  intros p Hp.
  repeat (apply elem_of_cons in Hp as [->|Hp]; [split; concrete|]).
  by apply elem_of_nil in Hp.
Defined.

(** X4.  Removing a list of paths right after adding it leaves the watcher
    that removing alone gives: the entries and the membership the addition
    created are gone, and those of other paths are untouched. *)
Theorem remove_after_add l self :
  remove_watched_paths (Collection l) (add_watched_paths (Collection l) self)
    = remove_watched_paths (Collection l) self.
Proof.
  apply watcher_eq.
  - rewrite !remove_watched_paths_paths, add_watched_paths_paths. simpl.
    set_solver.
  - apply map_eq. intros p.
    rewrite !remove_watched_paths_file_data, add_watched_paths_file_data.
    simpl. case_decide as Hin; [done|].
    rewrite decide_False; [done|]. by intros [? _].
Qed.

(** X5.  Removing a path and adding it again forgets what was recorded for
    it: the entry is [None], and the next pass that returns reports the path
    if stat succeeds on it, changed or not. *)
Theorem readded_path_reported fs order self l l' p st changed :
  p ∈ l →
  p ∈ l' →
  FileSystemCache.stat fs p = inr st →
  enumerates order
    (_paths (add_watched_paths (Collection l')
               (remove_watched_paths (Collection l) self))) →
  outcome
    (find_changed fs order
       (add_watched_paths (Collection l')
          (remove_watched_paths (Collection l) self)))
    = inr changed →
  p ∈ changed.
Proof.
  intros Hl Hl' Hst Horder Hout.
  set (w0 := remove_watched_paths (Collection l) self) in *.
  assert (Hgone : p ∉ _paths w0).
  { unfold w0. rewrite remove_watched_paths_paths, elem_of_difference,
      elem_of_list_to_set. simpl. naive_solver. }
  eapply (unset_path_reported fs order _ p st); try done.
  - rewrite add_watched_paths_paths, elem_of_union, elem_of_list_to_set.
    by right.
  - rewrite add_watched_paths_file_data. by rewrite decide_True.
Qed.

Lemma readded_path_reported_witness : "/a" ∈ ({["/a"]} : gset path).
Proof.
  apply (readded_path_reported a_is_x ["/a"] seen_x ["/a"] ["/a"] "/a"
           {| os.st_size := 1; os.st_mtime := 100 |} {["/a"]}); concrete.
Defined.

(** * Further properties of [find_changed] *)

(** X6.  A file that has disappeared at one pass and is back at the next is
    reported by both passes, also when it is back with the size, mtime and
    content recorded before. *)
Theorem disappear_reappear_reported_twice
    fs1 fs2 order1 order2 self p old st changed1 changed2 :
  enumerates order1 (_paths self) →
  enumerates order2 (_paths self) →
  p ∈ _paths self →
  _file_data self !! p = Some (Some old) →
  FileSystemCache.stat fs1 p = inl FileNotFoundError →
  FileSystemCache.stat fs2 p = inr st →
  outcome (find_changed fs1 order1 self) = inr changed1 →
  outcome (find_changed fs2 order2 (after (find_changed fs1 order1 self)))
    = inr changed2 →
  p ∈ changed1 ∧ p ∈ changed2.
Proof.
  intros Horder1 Horder2 Hp Hold Hst1 Hst2 Hout1 Hout2.
  destruct (find_changed_returned fs1 order1 self changed1 p Horder1 Hout1 Hp)
    as (old' & new & r & qs & Hold' & Hv & Hnew & Hrep & _).
  rewrite Hold in Hold'. injection Hold' as <-.
  unfold verdict in Hv. rewrite Hst1 in Hv. injection Hv as <- <- <-.
  split.
  - by apply Hrep.
  - apply (unset_path_reported fs2 order2
             (after (find_changed fs1 order1 self)) p st);
      [exact Horder2|exact Hp|exact Hnew|done..].
Qed.

Lemma disappear_reappear_reported_twice_witness :
  "/a" ∈ ({["/a"]} : gset path) ∧ "/a" ∈ ({["/a"]} : gset path).
Proof.
  apply (disappear_reappear_reported_twice no_files a_is_x ["/a"] ["/a"]
           seen_x "/a" (mkFileData 100 1 "x")
           {| os.st_size := 1; os.st_mtime := 100 |} {["/a"]} {["/a"]});
    concrete.
Defined.

(** X7.  However a pass ends, it leaves the watched set and the key set of
    the dict as they were, and does not touch the entry of a path that is
    not watched. *)
Theorem find_changed_touches_watched_only fs order self :
  enumerates order (_paths self) →
  _paths (after (find_changed fs order self)) = _paths self ∧
  dom (_file_data (after (find_changed fs order self)))
    = dom (_file_data self) ∧
  ∀ p, p ∉ _paths self →
    _file_data (after (find_changed fs order self)) !! p
      = _file_data self !! p.
Proof.
  intros [_ Hmem]. split_and!; [done|apply find_changed_dom|].
  intros p Hp.
  apply (find_changed_loop_frame fs order ∅
           {| file_data := _file_data self; calls := [] |} p).
  by rewrite Hmem.
Qed.

Lemma find_changed_touches_watched_only_witness :
  _paths (after (find_changed a_is_y ["/a"]
                   (set_file_data "/b" (mkFileData 7 7 "b") seen_x)))
    = _paths (set_file_data "/b" (mkFileData 7 7 "b") seen_x) ∧
  dom (_file_data (after (find_changed a_is_y ["/a"]
                            (set_file_data "/b" (mkFileData 7 7 "b") seen_x))))
    = dom (_file_data (set_file_data "/b" (mkFileData 7 7 "b") seen_x)) ∧
  ∀ p, p ∉ _paths (set_file_data "/b" (mkFileData 7 7 "b") seen_x) →
    _file_data (after (find_changed a_is_y ["/a"]
                         (set_file_data "/b" (mkFileData 7 7 "b") seen_x))) !! p
      = _file_data (set_file_data "/b" (mkFileData 7 7 "b") seen_x) !! p.
Proof.
  apply (find_changed_touches_watched_only a_is_y ["/a"]
           (set_file_data "/b" (mkFileData 7 7 "b") seen_x)).
  concrete.
Defined.

(** The log of a pass that returns: the calls of the iterations, in the
    order of the iteration. *)
Lemma find_changed_loop_returns_calls fs ps changed s changed' s' :
  NoDup ps →
  find_changed_loop fs ps changed s = (inr changed', s') →
  calls s' = calls s ++ (ps ≫= path_queries fs (file_data s)).
Proof.
  revert changed s. induction ps as [|p0 ps IH]; intros changed s Hnd Hrun.
  { injection Hrun as _ <-. by rewrite app_nil_r. }
  apply NoDup_cons in Hnd as [Hp0 Hnd].
  rewrite find_changed_loop_cons in Hrun.
  destruct (find_changed_body_view fs p0 changed s)
    as [| |old new r qs Hold Hv]; try done.
  rewrite (IH _ _ Hnd Hrun). cbn [calls file_data].
  rewrite bind_cons, <- app_assoc.
  f_equal. f_equal.
  - unfold path_queries. by rewrite Hold, Hv.
  - apply Forall_bind_ext, Forall_forall. intros p Hp.
    unfold path_queries. rewrite lookup_insert_ne; [done|]. by intros ->.
Qed.

(** X8.  The order in which the watched set is traversed does not matter to
    a pass that returns: under any other order the pass returns too, with
    the same set and the same watcher afterwards, and makes the same
    accessor calls up to their order. *)
Theorem find_changed_order_irrelevant fs order1 order2 self changed :
  enumerates order1 (_paths self) →
  enumerates order2 (_paths self) →
  outcome (find_changed fs order1 self) = inr changed →
  outcome (find_changed fs order2 self) = inr changed ∧
  after (find_changed fs order2 self) = after (find_changed fs order1 self) ∧
  queries (find_changed fs order2 self)
    ≡ₚ queries (find_changed fs order1 self).
Proof.
  intros Horder1 Horder2 Hout1.
  pose proof Horder1 as [Hnd1 Hmem1]. pose proof Horder2 as [Hnd2 Hmem2].
  destruct (find_changed_loop_total fs order2 ∅
    {| file_data := _file_data self; calls := [] |} Hnd2)
    as (changed2 & s2 & Hrun2).
  { intros p Hp%Hmem2.
    destruct (find_changed_returned fs order1 self changed p Horder1 Hout1 Hp)
      as (old & new & r & qs & Hold & Hv & _).
    by exists old, (new, r), qs. }
  assert (Hout2 : outcome (find_changed fs order2 self) = inr changed2).
  { unfold find_changed. by rewrite Hrun2. }
  assert (Hsame : changed2 = changed).
  { apply set_eq. intros p. destruct (decide (p ∈ _paths self)) as [Hp|Hp].
    - destruct (find_changed_returned fs order1 self changed p Horder1 Hout1 Hp)
        as (old & new & r & qs & Hold & Hv & _ & Hrep & _).
      destruct (find_changed_returned fs order2 self changed2 p Horder2 Hout2 Hp)
        as (old' & new' & r' & qs' & Hold' & Hv' & _ & Hrep' & _).
      rewrite Hold in Hold'. injection Hold' as <-.
      rewrite Hv in Hv'. injection Hv' as <- <- <-.
      by rewrite Hrep, Hrep'.
    - split; intros Hin; destruct Hp.
      + by apply (find_changed_subseteq fs order2 self changed2 Horder2 Hout2).
      + by apply (find_changed_subseteq fs order1 self changed Horder1 Hout1). }
  subst changed2. split_and!; [done| |].
  - apply watcher_eq; [done|]. apply map_eq. intros p.
    destruct (decide (p ∈ _paths self)) as [Hp|Hp].
    + destruct (find_changed_returned fs order1 self changed p Horder1 Hout1 Hp)
        as (old & new & r & qs & Hold & Hv & -> & _).
      destruct (find_changed_returned fs order2 self changed p Horder2 Hout2 Hp)
        as (old' & new' & r' & qs' & Hold' & Hv' & -> & _).
      rewrite Hold in Hold'. injection Hold' as <-.
      rewrite Hv in Hv'. by injection Hv' as <- <- <-.
    + transitivity (_file_data self !! p); [|symmetry].
      * apply (find_changed_loop_frame fs order2 ∅
                 {| file_data := _file_data self; calls := [] |} p).
        by rewrite Hmem2.
      * apply (find_changed_loop_frame fs order1 ∅
                 {| file_data := _file_data self; calls := [] |} p).
        by rewrite Hmem1.
  - pose proof (find_changed_run fs order1 self) as Hrun1.
    rewrite Hout1 in Hrun1.
    pose proof (find_changed_run fs order2 self) as Hrun2'.
    rewrite Hout2 in Hrun2'.
    apply find_changed_loop_returns_calls in Hrun1; [|done].
    apply find_changed_loop_returns_calls in Hrun2'; [|done].
    cbn [calls file_data app] in Hrun1, Hrun2'. rewrite Hrun1, Hrun2'.
    apply bind_Permutation, NoDup_Permutation; [done..|].
    intros p. by rewrite Hmem1, Hmem2.
Qed.

Lemma find_changed_order_irrelevant_witness :
  outcome (find_changed a_is_x ["/b"; "/a"] watching_ab) = inr {["/a"]} ∧
  after (find_changed a_is_x ["/b"; "/a"] watching_ab)
    = after (find_changed a_is_x ["/a"; "/b"] watching_ab) ∧
  queries (find_changed a_is_x ["/b"; "/a"] watching_ab)
    ≡ₚ queries (find_changed a_is_x ["/a"; "/b"] watching_ab).
Proof.
  apply (find_changed_order_irrelevant a_is_x ["/a"; "/b"] ["/b"; "/a"]
           watching_ab {["/a"]}); concrete.
Defined.

Lemma verdict_ext fs fs' p old :
  FileSystemCache.stat fs' p = FileSystemCache.stat fs p →
  FileSystemCache.md5 fs' p = FileSystemCache.md5 fs p →
  verdict fs' p old = verdict fs p old.
Proof. unfold verdict. by intros -> ->. Qed.

(** X9.  When a pass raises, the entries of the paths visited before are
    already rewritten while the set of changes is lost with the exception.
    A path visited in the aborted pass is therefore not reported by the
    next pass if the accessor answers the same for it, although no caller
    was told of its change. *)
Theorem aborted_pass_loses_reports
    fs fs' self pre p suf q old e changed order' changed' :
  enumerates (pre ++ p :: suf) (_paths self) →
  q ∈ pre →
  outcome (find_changed fs pre self) = inr changed →
  _file_data self !! p = Some old →
  accessor_raises fs p old e →
  FileSystemCache.stat fs' q = FileSystemCache.stat fs q →
  FileSystemCache.md5 fs' q = FileSystemCache.md5 fs q →
  enumerates order' (_paths self) →
  outcome (find_changed fs' order'
             (after (find_changed fs (pre ++ p :: suf) self)))
    = inr changed' →
  outcome (find_changed fs (pre ++ p :: suf) self) = inl e ∧
  q ∉ changed'.
Proof.
  intros Horder Hq Hout Hold [qs Hv]%accessor_raises_verdict
    Hstat Hmd5 Horder' Hout'.
  pose proof Horder as [Hnd Hmem].
  apply NoDup_app in Hnd as (Hndpre & Hpre & _).
  assert (p ∉ pre) as Hnotin by (intros Hin; apply (Hpre p Hin); left).
  assert (_file_data (after (find_changed fs pre self)) !! p = Some old)
    as Hold'.
  { rewrite <- Hold.
    apply (find_changed_loop_frame fs pre ∅
             {| file_data := _file_data self; calls := [] |} p Hnotin). }
  rewrite (find_changed_raises_at fs pre p suf self changed old e qs
             Hout Hold' Hv) in *.
  cbn [outcome after] in *. split; [done|].
  pose proof (find_changed_run fs pre self) as Hrun. rewrite Hout in Hrun.
  destruct (find_changed_loop_returns fs _ _ _ _ _ Hndpre Hrun q Hq)
    as (oldq & newq & rq & qsq & _ & Hvq & Hnewq & _).
  change (_file_data (after (find_changed fs pre self)) !! q = Some newq)
    in Hnewq.
  apply verdict_settled in Hvq.
  rewrite <- (verdict_ext fs fs' q newq Hstat Hmd5) in Hvq.
  assert (Hqw : q ∈ _paths (after (find_changed fs pre self))).
  { apply Hmem. rewrite elem_of_app. by left. }
  destruct (find_changed_returned fs' order'
              (after (find_changed fs pre self)) changed' q Horder' Hout' Hqw)
    as (old2 & new2 & r2 & qs2 & Hold2 & Hv2 & _ & Hrep & _).
  rewrite Hnewq in Hold2. injection Hold2 as <-.
  rewrite Hvq in Hv2. injection Hv2 as <- <- <-.
  by rewrite Hrep.
Qed.

Lemma aborted_pass_loses_reports_witness :
  "/b" ∈ ({["/b"]} : gset path) ∧
  outcome (find_changed b_and_unreadable_a (["/b"] ++ "/a" :: []) watching_ab)
    = inl (OtherError "PermissionError") ∧
  "/b" ∉ ({["/a"]} : gset path).
Proof.
  split; [concrete|].
  apply (aborted_pass_loses_reports b_and_unreadable_a
           (disk [("/a", file 1 100 "x"); ("/b", file 5 100 "b")])
           watching_ab ["/b"] "/a" [] "/b" None
           (OtherError "PermissionError") {["/b"]} ["/a"; "/b"] {["/a"]});
    try concrete.
  right. exists {| os.st_size := 1; os.st_mtime := 100 |}. by vm_compute.
Defined.

(** * When a pass raises, and when it returns *)

(** X10.  Every watched path keeps an entry under any sequence of public
    calls in which no removal is given an argument that its first traversal
    exhausts; [set_file_data] on any path and additions with any argument
    are allowed. *)
Theorem covered_preserved cs self :
  covered self →
  Forall (λ c, ∀ ps, c = RemoveWatchedPaths ps →
                     second_pass ps = first_pass ps) cs →
  covered (perform_all cs self).
Proof.
  revert self. induction cs as [|c cs IH]; intros self Hinv Hcs; [done|].
  apply Forall_cons in Hcs as [Hc Hcs]. simpl. apply IH; [|done].
  by apply perform_covered.
Qed.

Lemma covered_preserved_witness :
  covered
    (perform_all
       [SetFileData "/c" (mkFileData 1 1 "c");
        AddWatchedPaths (Iterator ["/a"]);
        AddWatchedPaths (Collection ["/b"]);
        FindChanged b_and_unreadable_a ["/b"];
        RemoveWatchedPaths (Collection ["/b"; "/c"])]
       init).
Proof.
  apply (covered_preserved _ init).
  - unfold covered. simpl. set_solver.
  - repeat constructor; by intros ps [= <-].
Defined.

(** X11.  From a watcher in which every watched path has an entry, a pass
    raises only what the accessor raised in the iteration of a watched
    path, for the entry that path had when the pass began; the dict
    subscript never raises [KeyError]. *)
Theorem find_changed_raises_from_accessor fs order self e :
  enumerates order (_paths self) →
  covered self →
  outcome (find_changed fs order self) = inl e →
  ∃ p old,
    p ∈ _paths self ∧
    _file_data self !! p = Some old ∧
    accessor_raises fs p old e.
Proof.
  intros [Hnd Hmem] Hcov Hout.
  destruct (find_changed_raised fs order self e Hout)
    as (pre & p & suf & changed & -> & Hpre & _ & Hwhy).
  apply NoDup_app in Hnd as (_ & Hdisj & _).
  assert (p ∉ pre) as Hnotin by (intros Hin; apply (Hdisj p Hin); left).
  assert (Hp : p ∈ _paths self).
  { apply Hmem. rewrite elem_of_app. right. left. }
  assert (Hsame : _file_data (after (find_changed fs pre self)) !! p
                  = _file_data self !! p).
  { apply (find_changed_loop_frame fs pre ∅
             {| file_data := _file_data self; calls := [] |} p Hnotin). }
  rewrite Hsame in Hwhy. exists p.
  destruct Hwhy as [[Hnone _]|(old & Hold & Hraise)]; [|by exists old].
  apply Hcov, elem_of_dom in Hp as [old Hold]. congruence.
Qed.

Lemma find_changed_raises_from_accessor_witness :
  ∃ p old,
    p ∈ _paths watching_ab ∧
    _file_data watching_ab !! p = Some old ∧
    accessor_raises b_and_unreadable_a p old (OtherError "PermissionError").
Proof.
  apply (find_changed_raises_from_accessor b_and_unreadable_a ["/b"; "/a"]
           watching_ab (OtherError "PermissionError")); [concrete| |concrete].
  unfold covered. intros p Hp. apply elem_of_dom.
  unfold watching_ab in *. rewrite add_watched_paths_file_data.
  rewrite add_watched_paths_paths in Hp. simpl in *.
  rewrite decide_True; [done|]. set_solver.
Defined.

(** X12.  A pass returns exactly when every watched path has an entry and
    the accessor does not raise in the iteration of any of them. *)
Theorem find_changed_returns_iff fs order self :
  enumerates order (_paths self) →
  (∃ changed, outcome (find_changed fs order self) = inr changed) ↔
  (∀ p, p ∈ _paths self →
     ∃ old, _file_data self !! p = Some old ∧
            ∀ e, ¬ accessor_raises fs p old e).
Proof.
  intros Horder. split.
  - intros [changed Hout] p Hp.
    destruct (find_changed_returned fs order self changed p Horder Hout Hp)
      as (old & new & r & qs & Hold & Hv & _).
    exists old. split; [done|].
    intros e [qs' Hv']%accessor_raises_verdict. congruence.
  - intros Hall. destruct Horder as [Hnd Hmem].
    destruct (find_changed_loop_total fs order ∅
      {| file_data := _file_data self; calls := [] |} Hnd)
      as (changed & s' & Hrun).
    + intros p Hp%Hmem. destruct (Hall p Hp) as (old & Hold & Hok).
      exists old. simpl.
      destruct (verdict fs p old) as [[e|v] qs] eqn:Hv; [|by eauto].
      destruct (Hok e). apply accessor_raises_verdict. eauto.
    + exists changed. unfold find_changed. by rewrite Hrun.
Qed.

Lemma find_changed_returns_iff_witness :
  (∃ changed,
     outcome (find_changed a_is_x ["/a"; "/b"] watching_ab) = inr changed) ↔
  (∀ p, p ∈ _paths watching_ab →
     ∃ old, _file_data watching_ab !! p = Some old ∧
            ∀ e, ¬ accessor_raises a_is_x p old e).
Proof.
  apply (find_changed_returns_iff a_is_x ["/a"; "/b"] watching_ab).
  concrete.
Defined.

(** X13.  [remove_watched_paths] given a one-shot iterator deletes the
    entries and leaves the paths watched; if one of them was watched, the
    next pass raises instead of returning. *)
Theorem remove_with_iterator_breaks_polling fs order self l p :
  p ∈ _paths self →
  p ∈ l →
  enumerates order (_paths self) →
  _paths (remove_watched_paths (Iterator l) self) = _paths self ∧
  _file_data (remove_watched_paths (Iterator l) self) !! p = None ∧
  ∃ e, outcome (find_changed fs order (remove_watched_paths (Iterator l) self))
       = inl e.
Proof.
  intros Hp Hl Horder.
  assert (Hpaths : _paths (remove_watched_paths (Iterator l) self) = _paths self).
  { rewrite remove_watched_paths_paths. simpl. set_solver. }
  assert (Hnone : _file_data (remove_watched_paths (Iterator l) self) !! p = None).
  { rewrite remove_watched_paths_file_data. by rewrite decide_True. }
  split_and!; [done..|].
  destruct (outcome (find_changed fs order
              (remove_watched_paths (Iterator l) self))) as [e|changed] eqn:Hout;
    [by exists e|].
  rewrite <- Hpaths in Horder, Hp.
  destruct (find_changed_returned fs order _ changed p Horder Hout Hp)
    as (old & _ & _ & _ & Hold & _).
  congruence.
Qed.

Lemma remove_with_iterator_breaks_polling_witness :
  _paths (remove_watched_paths (Iterator ["/a"]) seen_x) = _paths seen_x ∧
  _file_data (remove_watched_paths (Iterator ["/a"]) seen_x) !! "/a" = None ∧
  ∃ e, outcome (find_changed a_is_x ["/a"]
                  (remove_watched_paths (Iterator ["/a"]) seen_x))
       = inl e.
Proof.
  apply (remove_with_iterator_breaks_polling a_is_x ["/a"] seen_x ["/a"] "/a");
    concrete.
Defined.

(** X14.  [add_watched_paths] given a one-shot iterator stores [None] for
    the unwatched paths it yields and adds none of them to the watched set:
    such a path is not reported by the next pass. *)
Theorem add_with_iterator_watches_nothing fs order self l p changed :
  p ∉ _paths self →
  p ∈ l →
  enumerates order (_paths (add_watched_paths (Iterator l) self)) →
  outcome (find_changed fs order (add_watched_paths (Iterator l) self))
    = inr changed →
  _paths (add_watched_paths (Iterator l) self) = _paths self ∧
  _file_data (add_watched_paths (Iterator l) self) !! p = Some None ∧
  p ∉ changed.
Proof.
  intros Hp Hl Horder Hout.
  assert (Hpaths : _paths (add_watched_paths (Iterator l) self) = _paths self).
  { rewrite add_watched_paths_paths. simpl. set_solver. }
  split_and!; [done| |].
  - rewrite add_watched_paths_file_data. by rewrite decide_True.
  - intros Hin.
    apply (find_changed_subseteq fs order _ changed Horder Hout) in Hin.
    by rewrite Hpaths in Hin.
Qed.

Lemma add_with_iterator_watches_nothing_witness :
  _paths (add_watched_paths (Iterator ["/a"]) init) = _paths init ∧
  _file_data (add_watched_paths (Iterator ["/a"]) init) !! "/a" = Some None ∧
  "/a" ∉ (∅ : gset path).
Proof.
  apply (add_with_iterator_watches_nothing a_is_x [] init ["/a"] "/a" ∅);
    concrete.
Defined.

(** * Hashing and the recorded metadata *)

(** X15.  In a pass that returns, the content hash of a watched path is
    asked for exactly when stat succeeds on it and its entry is [None] or
    differs from the stat result in size or mtime. *)
Theorem md5_called_iff_needed fs order self p old changed :
  enumerates order (_paths self) →
  p ∈ _paths self →
  _file_data self !! p = Some old →
  outcome (find_changed fs order self) = inr changed →
  QMd5 p ∈ queries (find_changed fs order self) ↔
  ∃ st,
    FileSystemCache.stat fs p = inr st ∧
    match old with
    | None => True
    | Some o => os.st_size st ≠ st_size o ∨ os.st_mtime st ≠ st_mtime o
    end.
Proof.
  intros Horder Hp Hold Hout.
  destruct (find_changed_returned fs order self changed p Horder Hout Hp)
    as (old' & new & r & qs & Hold' & Hv & _ & _ & Hqs).
  rewrite Hold in Hold'. injection Hold' as <-.
  assert (QMd5 p ∈ queries (find_changed fs order self) ↔ QMd5 p ∈ qs) as ->.
  { rewrite <- Hqs, list_elem_of_filter. naive_solver. }
  unfold verdict in Hv.
  destruct (FileSystemCache.stat fs p) as [[]|st]; try done.
  - injection Hv as _ _ <-. split; [set_solver|by intros (? & ? & _)].
  - destruct old as [o|].
    + case_decide as Hmeta.
      * destruct (FileSystemCache.md5 fs p); [done|].
        injection Hv as _ _ <-. split; [by eauto|set_solver].
      * injection Hv as _ _ <-.
        split; [set_solver|]. by intros (? & [= <-] & ?).
    + destruct (FileSystemCache.md5 fs p); [done|].
      injection Hv as _ _ <-. split; [by eauto|set_solver].
Qed.

Lemma md5_called_iff_needed_witness :
  QMd5 "/a" ∈ queries (find_changed a_touched ["/a"] seen_x) ↔
  ∃ st,
    FileSystemCache.stat a_touched "/a" = inr st ∧
    (os.st_size st ≠ 1 ∨ os.st_mtime st ≠ 100).
Proof.
  apply (md5_called_iff_needed a_touched ["/a"] seen_x "/a"
           (Some (mkFileData 100 1 "x")) ∅); concrete.
Defined.

(** X16.  However a pass ends, every call of [md5] for a path comes after a
    call of [stat] for that path in the same pass, and that stat
    succeeded. *)
Theorem md5_only_after_stat fs order self p before rest :
  NoDup order →
  queries (find_changed fs order self) = before ++ QMd5 p :: rest →
  QStat p ∈ before ∧ ∃ st, FileSystemCache.stat fs p = inr st.
Proof.
  intros Hnd Hlog.
  assert (Hhead : ∃ tl, filter (λ q, query_path q = p)
                          (queries (find_changed fs order self))
                        = QStat p :: tl ∧
                        ∃ st, FileSystemCache.stat fs p = inr st).
  { assert (Hin : QMd5 p ∈ filter (λ q, query_path q = p)
                             (queries (find_changed fs order self))).
    { apply list_elem_of_filter. split; [done|]. rewrite Hlog. set_solver. }
    destruct (find_changed_queries fs order self p Hnd) as [Hqs|Hqs];
      rewrite Hqs in Hin |- *; [by apply elem_of_nil in Hin|].
    unfold path_queries in *.
    destruct (_file_data self !! p) as [old|]; [|by apply elem_of_nil in Hin].
    unfold verdict in *.
    destruct (FileSystemCache.stat fs p) as [[]|st];
      [set_solver..|].
    destruct old as [o|]; [case_decide|];
      try destruct (FileSystemCache.md5 fs p); simpl in *; eauto. }
  destruct Hhead as (tl & Hfilter & Hst). split; [|done].
  rewrite Hlog, filter_app, filter_cons_True in Hfilter by done.
  destruct (filter (λ q, query_path q = p) before) as [|q0 l0] eqn:Hbefore;
    [done|].
  injection Hfilter as -> _.
  eapply (list_elem_of_filter (λ q, query_path q = p)).
  rewrite Hbefore. left.
Qed.

Lemma md5_only_after_stat_witness :
  QStat "/a" ∈ [QStat "/b"; QStat "/a"; QStat "/a"] ∧
  ∃ st, FileSystemCache.stat a_is_x "/a" = inr st.
Proof.
  apply (md5_only_after_stat a_is_x ["/b"; "/a"] watching_ab "/a"
           [QStat "/b"; QStat "/a"; QStat "/a"] []); concrete.
Defined.

(** X17.  Whether a pass that returns reports a path, and what it records
    for it, depends only on the entry of that path and on what the accessor
    answers for that path: not on the other watched paths. *)
Theorem report_depends_on_path_only
    fs1 fs2 order1 order2 self1 self2 p changed1 changed2 :
  enumerates order1 (_paths self1) →
  enumerates order2 (_paths self2) →
  p ∈ _paths self1 →
  p ∈ _paths self2 →
  _file_data self1 !! p = _file_data self2 !! p →
  FileSystemCache.stat fs1 p = FileSystemCache.stat fs2 p →
  FileSystemCache.md5 fs1 p = FileSystemCache.md5 fs2 p →
  outcome (find_changed fs1 order1 self1) = inr changed1 →
  outcome (find_changed fs2 order2 self2) = inr changed2 →
  (p ∈ changed1 ↔ p ∈ changed2) ∧
  _file_data (after (find_changed fs1 order1 self1)) !! p
    = _file_data (after (find_changed fs2 order2 self2)) !! p.
Proof.
  intros Horder1 Horder2 Hp1 Hp2 Hentry Hstat Hmd5 Hout1 Hout2.
  destruct (find_changed_returned fs1 order1 self1 changed1 p Horder1 Hout1 Hp1)
    as (old & new & r & qs & Hold & Hv & -> & Hrep & _).
  destruct (find_changed_returned fs2 order2 self2 changed2 p Horder2 Hout2 Hp2)
    as (old' & new' & r' & qs' & Hold' & Hv' & -> & Hrep' & _).
  rewrite Hentry, Hold' in Hold. injection Hold as <-.
  rewrite (verdict_ext fs2 fs1 p old' Hstat Hmd5), Hv' in Hv.
  injection Hv as <- <- <-. by rewrite Hrep, Hrep'.
Qed.

Lemma report_depends_on_path_only_witness :
  ("/a" ∈ ({["/a"]} : gset path) ↔ "/a" ∈ ({["/a"; "/b"]} : gset path)) ∧
  _file_data (after (find_changed a_is_x ["/a"] watching_a)) !! "/a"
    = _file_data
        (after (find_changed
                  (disk [("/a", file 1 100 "x"); ("/b", file 5 100 "b")])
                  ["/b"; "/a"] watching_ab)) !! "/a".
Proof.
  apply (report_depends_on_path_only a_is_x
           (disk [("/a", file 1 100 "x"); ("/b", file 5 100 "b")])
           ["/a"] ["/b"; "/a"] watching_a watching_ab "/a"
           {["/a"]} {["/a"; "/b"]}); concrete.
Defined.

(** X18.  After a pass that returns, the entry of every watched path agrees
    with what stat answered: [None] when stat raised [FileNotFoundError],
    and otherwise a [FileData] with the size and the mtime of the stat
    result.  The recorded hash is the answer of [md5] whenever the pass
    asked for it. *)
Theorem entries_mirror_stat fs order self changed p :
  enumerates order (_paths self) →
  outcome (find_changed fs order self) = inr changed →
  p ∈ _paths self →
  (FileSystemCache.stat fs p = inl FileNotFoundError ∧
   _file_data (after (find_changed fs order self)) !! p = Some None) ∨
  (∃ st data,
     FileSystemCache.stat fs p = inr st ∧
     _file_data (after (find_changed fs order self)) !! p = Some (Some data) ∧
     st_size data = os.st_size st ∧
     st_mtime data = os.st_mtime st ∧
     (QMd5 p ∈ queries (find_changed fs order self) →
      FileSystemCache.md5 fs p = inr (md5 data))).
Proof.
  intros Horder Hout Hp.
  destruct (find_changed_returned fs order self changed p Horder Hout Hp)
    as (old & new & r & qs & Hold & Hv & -> & _ & Hqs).
  assert (QMd5 p ∈ queries (find_changed fs order self) → QMd5 p ∈ qs) as Hin.
  { rewrite <- Hqs, list_elem_of_filter. naive_solver. }
  unfold verdict in Hv.
  destruct (FileSystemCache.stat fs p) as [[]|st]; try done.
  - injection Hv as <- _ _. by left.
  - right. exists st. destruct old as [o|].
    + case_decide as Hmeta.
      * destruct (FileSystemCache.md5 fs p); [done|].
        injection Hv as <- _ _. eexists. by split_and!.
      * injection Hv as <- _ <-. exists o. split_and!; [done..| | |].
        -- destruct (decide (st_size o = os.st_size st)); naive_solver.
        -- destruct (decide (st_mtime o = os.st_mtime st)); naive_solver.
        -- intros Hq%Hin. set_solver.
    + destruct (FileSystemCache.md5 fs p); [done|].
      injection Hv as <- _ _. eexists. by split_and!.
Qed.

Lemma entries_mirror_stat_witness :
  (FileSystemCache.stat a_is_y "/a" = inl FileNotFoundError ∧
   _file_data (after (find_changed a_is_y ["/a"] seen_x)) !! "/a" = Some None) ∨
  (∃ st data,
     FileSystemCache.stat a_is_y "/a" = inr st ∧
     _file_data (after (find_changed a_is_y ["/a"] seen_x)) !! "/a"
       = Some (Some data) ∧
     st_size data = os.st_size st ∧
     st_mtime data = os.st_mtime st ∧
     (QMd5 "/a" ∈ queries (find_changed a_is_y ["/a"] seen_x) →
      FileSystemCache.md5 a_is_y "/a" = inr (md5 data))).
Proof.
  apply (entries_mirror_stat a_is_y ["/a"] seen_x {["/a"]} "/a"); concrete.
Defined.
